(** * chess_moves.py: pseudo-legal move generation on an 8x8 board

    A shallow embedding of [src/chess_moves.py] (Python 2) and the
    verification of its specification.  The program works on strings
    throughout: board cells are tokens such as [wp] or [x], and emitted
    moves are report strings such as [f3] or [a5 (Capture Pawn)].  The
    embedding keeps that representation; the structured [Move] of the
    specification is recovered from the strings by [parse_move]. *)

From Stdlib Require Import ZArith List String Ascii Bool Lia.
From Stdlib Require Import Sorting.Sorted.
Import ListNotations.

Local Open Scope Z_scope.
Local Open Scope list_scope.

(** ** Python runtime: exceptions, indexing, strings *)

Module Py.

Inductive exn : Type := IndexError | KeyError.

(** Outcome of running a piece of Python: a value, a raised exception,
    or [OutOfFuel] when a fuel-bounded loop has used up its fuel. *)
Inductive run (A : Type) : Type :=
| Return (a : A)
| Raise (e : exn)
| OutOfFuel.
Arguments Return {A} a.
Arguments Raise {A} e.
Arguments OutOfFuel {A}.

Definition bind {A B : Type} (m : run A) (k : A -> run B) : run B :=
  match m with
  | Return a => k a
  | Raise e => Raise e
  | OutOfFuel => OutOfFuel
  end.

(** [l[i]] on a list: a negative index counts from the end, anything
    outside [-len, len) raises IndexError. *)
Definition index {A : Type} (l : list A) (i : Z) : run A :=
  let n := Z.of_nat (List.length l) in
  let j := if i <? 0 then i + n else i in
  if (0 <=? j) && (j <? n) then
    match nth_error l (Z.to_nat j) with
    | Some a => Return a
    | None => Raise IndexError
    end
  else Raise IndexError.

(** [s[i]] on a string: the one-character string at that position. *)
Definition str_index (s : string) (i : Z) : run string :=
  bind (index (list_ascii_of_string s) i)
       (fun a => Return (String a EmptyString)).

(** [d[k]] on a dict with string keys. *)
Fixpoint lookup {V : Type} (d : list (string * V)) (k : string) : run V :=
  match d with
  | [] => Raise KeyError
  | (k', v) :: d' => if String.eqb k' k then Return v else lookup d' k
  end.

(** [d.keys()] and [k in keys]. *)
Definition keys {V : Type} (d : list (string * V)) : list string :=
  map fst d.

Definition str_in_list (k : string) (l : list string) : bool :=
  existsb (String.eqb k) l.

(** [range(n)] as the Python 2 list it is, and [i in range(8)]. *)
Definition range (n : nat) : list Z := map Z.of_nat (seq 0 n).

Definition in_range8 (i : Z) : bool := existsb (Z.eqb i) (range 8).

(** [sub in s] on strings. *)
Fixpoint contains (sub s : string) : bool :=
  if String.prefix sub s then true
  else match s with
       | EmptyString => false
       | String _ s' => contains sub s'
       end.

Definition is_lower (a : ascii) : bool :=
  let n := nat_of_ascii a in (97 <=? n)%nat && (n <=? 122)%nat.
Definition is_upper (a : ascii) : bool :=
  let n := nat_of_ascii a in (65 <=? n)%nat && (n <=? 90)%nat.
Definition to_upper (a : ascii) : ascii :=
  if is_lower a then ascii_of_nat (nat_of_ascii a - 32) else a.
Definition to_lower (a : ascii) : ascii :=
  if is_upper a then ascii_of_nat (nat_of_ascii a + 32) else a.

(** [s.title()]: a cased character is upper-cased when it follows an
    uncased one and lower-cased otherwise. *)
Fixpoint title_from (prev_cased : bool) (s : string) : string :=
  match s with
  | EmptyString => EmptyString
  | String a s' =>
      if is_lower a || is_upper a
      then String (if prev_cased then to_lower a else to_upper a)
                  (title_from true s')
      else String a (title_from false s')
  end.
Definition title (s : string) : string := title_from false s.

(** [l[i] = v] for an index already known to be in range. *)
Fixpoint set_item {A : Type} (l : list A) (i : nat) (v : A) : list A :=
  match l, i with
  | [], _ => []
  | _ :: l', O => v :: l'
  | a :: l', S i' => a :: set_item l' i' v
  end.

(** [for x in xs: body], threading the variables the body assigns. *)
Fixpoint for_in {A S : Type} (xs : list A) (body : S -> A -> run S) (s : S)
  : run S :=
  match xs with
  | [] => Return s
  | x :: xs' => bind (body s x) (for_in xs' body)
  end.

End Py.

Import Py.

Notation "x <- m ;; k" := (bind m (fun x => k))
  (at level 61, m at next level, right associativity).
Notation "' p <- m ;; k" := (bind m (fun x => let p := x in k))
  (at level 61, p pattern, m at next level, right associativity).

(** ** The program *)

(** The [Piece] class: its attributes, [moves] included. *)
Record Piece : Type := mkPiece {
  color : string;
  name : string;
  column : Z;
  row : Z;
  moves : list string
}.

Definition piece_names : list (string * string) :=
  [("p", "pawn"); ("r", "rook"); ("n", "knight");
   ("b", "bishop"); ("q", "queen"); ("k", "king")]%string.

Definition piece_colors : list (string * string) :=
  [("w", "white"); ("b", "black")]%string.

(** Variables of one run of the [while] loop of [walk]. *)
Record walk_vars : Type := mkVars {
  w_column : Z;
  w_row : Z;
  w_max_distance : Z;
  w_moves : list string;
  w_stop : bool
}.

(** How one pass through the loop body ends: back to the loop test, or
    out of the loop through [break]. *)
Inductive pass : Type :=
| Again (v : walk_vars)
| Break (v : walk_vars).

Section Program.

(** The module-level [board] every function reads. *)
Variable board : list (list string).

Definition readable_position (column row : Z) : run string :=
  c <- str_index "abcdefgh" column ;;
  r <- str_index "87654321" row ;;
  Return (c ++ r)%string.

Definition space_check (moves : list string) (color : string)
           (column row : Z) : run (list string * bool) :=
  cells <- index board row ;;
  occupant <- index cells column ;;
  o0 <- str_index occupant 0 ;;
  if String.eqb o0 "x" then
    pos <- readable_position column row ;;
    Return (moves ++ [pos], false)
  else
    c0 <- str_index color 0 ;;
    if negb (String.eqb o0 c0) then
      o1 <- str_index occupant 1 ;;
      full <- lookup piece_names o1 ;;
      let name := title full in
      pos <- readable_position column row ;;
      Return (moves ++ [(pos ++ " (Capture " ++ name ++ ")")%string], true)
    else Return (moves, true).

(** The loop test of [walk]. *)
Definition walk_test (v : walk_vars) : bool :=
  in_range8 (w_column v) && in_range8 (w_row v) && (w_max_distance v >? 0).

(** The loop body of [walk]. *)
Definition walk_body (color : string) (column_step row_step : Z)
           (v : walk_vars) : run pass :=
  let column := w_column v + column_step in
  let row := w_row v + row_step in
  let max_distance := w_max_distance v + -1 in
  if negb (in_range8 column) || negb (in_range8 row) || w_stop v
  then Return (Break (mkVars column row max_distance (w_moves v) (w_stop v)))
  else
    '(moves, stop) <- space_check (w_moves v) color column row ;;
    Return (Again (mkVars column row max_distance moves stop)).

(** The [while] loop, run for at most [fuel] passes; [OutOfFuel] is the
    answer when a further pass would be needed. *)
Fixpoint walk_loop (fuel : nat) (color : string) (column_step row_step : Z)
         (v : walk_vars) : run walk_vars :=
  if walk_test v then
    match fuel with
    | O => OutOfFuel
    | S fuel' =>
        p <- walk_body color column_step row_step v ;;
        match p with
        | Again v' => walk_loop fuel' color column_step row_step v'
        | Break v' => Return v'
        end
    end
  else Return v.

(** [walk] allows its loop as many passes as [max_distance] counts
    (none when it is zero or negative). *)
Definition walk (piece : Piece) (steps : Z * Z) (max_distance : Z)
  : run (list string) :=
  let column := column piece in
  let row := row piece in
  let color := color piece in
  let column_step := fst steps in
  let row_step := snd steps in
  v <- walk_loop (Z.to_nat max_distance) color column_step row_step
                 (mkVars column row max_distance [] false) ;;
  Return (w_moves v).

Definition knight_options : list (Z * Z) :=
  [(-1, -2); (1, -2);
   (2, -1); (2, 1);
   (1, 2); (-1, 2);
   (-2, -1); (-2, -1)].

Definition knight_moves (piece : Piece) : run (list string) :=
  for_in knight_options
         (fun moves path => w <- walk piece path 1 ;; Return (moves ++ w))
         [].

(** The promotion pass of [pawn_moves]: [enumerate] reads the list as it
    stands at each index and the body overwrites the entry just read. *)
Fixpoint promote_from (count index : nat) (promotion_row : string)
         (moves : list string) : list string :=
  match count with
  | O => moves
  | S count' =>
      match nth_error moves index with
      | None => moves
      | Some space =>
          let moves' :=
            if contains promotion_row space
            then set_item moves index ("Promote on " ++ space)%string
            else moves in
          promote_from count' (S index) promotion_row moves'
      end
  end.

Definition pawn_moves (piece : Piece) : run (list string) :=
  let '(basic_path, capture_paths, promotion_row, max_distance) :=
    if String.eqb (color piece) "white"
    then ((0, -1), [(1, -1); (-1, -1)], "8"%string,
          if row piece =? 6 then 2 else 1)
    else ((0, 1), [(1, 1); (-1, 1)], "1"%string,
          if row piece =? 1 then 2 else 1) in
  w <- walk piece basic_path max_distance ;;
  let moves := filter (fun move => negb (contains "Capture" move)) w in
  moves <- for_in capture_paths
                  (fun moves path =>
                     w <- walk piece path 1 ;;
                     Return (moves ++ filter (contains "Capture") w))
                  moves ;;
  Return (promote_from (List.length moves) 0 promotion_row moves).

Definition cross_moves : list string := ["U"; "R"; "D"; "L"]%string.
Definition diagonal_moves : list string := ["UR"; "DR"; "DL"; "UL"]%string.
Definition move_changes : list (string * (Z * Z)) :=
  [("U", (0, -1)); ("R", (1, 0)); ("D", (0, 1)); ("L", (-1, 0));
   ("UR", (1, -1)); ("DR", (1, 1)); ("DL", (-1, 1)); ("UL", (-1, -1))]%string.
Definition move_options : list (string * (list string * Z)) :=
  [("rook", (cross_moves, 7));
   ("bishop", (diagonal_moves, 7));
   ("queen", ((cross_moves ++ diagonal_moves)%list, 7));
   ("king", ((cross_moves ++ diagonal_moves)%list, 1))]%string.

Definition find_moves (piece : Piece) : run (list string) :=
  if str_in_list (name piece) (keys move_options) then
    '(available_paths, max_distance) <- lookup move_options (name piece) ;;
    for_in available_paths
           (fun moves path =>
              step <- lookup move_changes path ;;
              w <- walk piece step max_distance ;;
              Return (moves ++ w))
           []
  else if String.eqb (name piece) "pawn" then pawn_moves piece
  else knight_moves piece.

(** [Piece(color, name, column, row)]: the constructor looks the two
    codes up and stores the moves of the piece it is building. *)
Definition new_Piece (color name : string) (column row : Z) : run Piece :=
  c <- lookup piece_colors color ;;
  n <- lookup piece_names name ;;
  ms <- find_moves (mkPiece c n column row []) ;;
  Return (mkPiece c n column row ms).

Definition find_pieces (color : string) : run (list Piece) :=
  let order := range 8 in
  let order := if String.eqb color "b" then rev order else order in
  for_in order
         (fun player_pieces row_index =>
            row <- index board row_index ;;
            for_in (range 8)
                   (fun player_pieces column_index =>
                      piece <- index row column_index ;;
                      p0 <- str_index piece 0 ;;
                      if String.eqb p0 color then
                        p1 <- str_index piece 1 ;;
                        pc <- new_Piece color p1 column_index row_index ;;
                        Return (player_pieces ++ [pc])
                      else Return player_pieces)
                   player_pieces)
         [].

End Program.

(** ** Sample boards *)

Definition empty_row : list string := repeat "x"%string 8.

Definition starting_board : list (list string) :=
  [ ["br"; "bn"; "bb"; "bq"; "bk"; "bb"; "bn"; "br"];
    ["bp"; "bp"; "bp"; "bp"; "bp"; "bp"; "bp"; "bp"];
    empty_row; empty_row; empty_row; empty_row;
    ["wp"; "wp"; "wp"; "wp"; "wp"; "wp"; "wp"; "wp"];
    ["wr"; "wn"; "wb"; "wq"; "wk"; "wb"; "wn"; "wr"] ]%string.

(** ** Vocabulary of the specification

    The data model of the specification (squares, moves) and the way the
    program's strings are read as values of it. *)

Inductive Color : Type := White | Black.
Inductive Kind : Type := Pawn | Knight | Bishop | Rook | Queen | King.
Inductive Square : Type := Empty | Occupied (c : Color) (k : Kind).

Record Move : Type := mkMove {
  target_column : Z;
  target_row : Z;
  capture : option Kind;
  promotion : bool
}.

Definition opponent (c : Color) : Color :=
  match c with White => Black | Black => White end.

Definition color_eqb (c d : Color) : bool :=
  match c, d with
  | White, White | Black, Black => true
  | _, _ => false
  end.

Definition color_code (c : Color) : string :=
  match c with White => "w" | Black => "b" end.

Definition color_name (c : Color) : string :=
  match c with White => "white" | Black => "black" end.

Definition kind_code (k : Kind) : string :=
  match k with
  | Pawn => "p" | Knight => "n" | Bishop => "b"
  | Rook => "r" | Queen => "q" | King => "k"
  end.

Definition kind_name (k : Kind) : string :=
  match k with
  | Pawn => "pawn" | Knight => "knight" | Bishop => "bishop"
  | Rook => "rook" | Queen => "queen" | King => "king"
  end.

Definition kind_title (k : Kind) : string :=
  match k with
  | Pawn => "Pawn" | Knight => "Knight" | Bishop => "Bishop"
  | Rook => "Rook" | Queen => "Queen" | King => "King"
  end.

Definition all_colors : list Color := [White; Black].
Definition all_kinds : list Kind := [Pawn; Knight; Bishop; Rook; Queen; King].

Definition all_squares : list Square :=
  Empty :: flat_map (fun c => map (Occupied c) all_kinds) all_colors.

(** The token the board parser accepts for a square, and its inverse. *)
Definition token (s : Square) : string :=
  match s with
  | Empty => "x"
  | Occupied c k => (color_code c ++ kind_code k)%string
  end.

Definition parse_token (t : string) : option Square :=
  find (fun s => String.eqb (token s) t) all_squares.

(** A validated board: eight rows of eight tokens. *)
Definition valid_row (cells : list string) : bool :=
  (List.length cells =? 8)%nat
  && forallb (fun t => match parse_token t with
                       | Some _ => true
                       | None => false
                       end) cells.

Definition valid_board (b : list (list string)) : bool :=
  (List.length b =? 8)%nat && forallb valid_row b.

Definition in_board (column row : Z) : bool :=
  (0 <=? column) && (column <=? 7) && (0 <=? row) && (row <=? 7).

(** [squareAt] of the specification: defined on [0,7]x[0,7] only. *)
Definition square_at (b : list (list string)) (column row : Z)
  : option Square :=
  if in_board column row then
    match nth_error b (Z.to_nat row) with
    | Some cells =>
        match nth_error cells (Z.to_nat column) with
        | Some t => parse_token t
        | None => None
        end
    | None => None
    end
  else None.

(** Algebraic notation: column 0 is file a, row 0 is rank 8. *)
Definition file_letter (column : Z) : string :=
  nth (Z.to_nat column) ["a"; "b"; "c"; "d"; "e"; "f"; "g"; "h"]%string
      "?"%string.

Definition rank_digit (row : Z) : string :=
  nth (Z.to_nat row) ["8"; "7"; "6"; "5"; "4"; "3"; "2"; "1"]%string
      "?"%string.

(** The report text of a move, and the move a report text stands for. *)
Definition render (m : Move) : string :=
  ((if promotion m then "Promote on " else "")
   ++ file_letter (target_column m) ++ rank_digit (target_row m)
   ++ match capture m with
      | None => ""
      | Some k => " (Capture " ++ kind_title k ++ ")"
      end)%string.

Definition all_moves : list Move :=
  flat_map (fun c =>
  flat_map (fun r =>
  flat_map (fun k =>
  map (fun p => mkMove c r k p) [false; true])
    (None :: map Some all_kinds))
    (range 8))
    (range 8).

Definition parse_move (s : string) : option Move :=
  find (fun m => String.eqb (render m) s) all_moves.

(** A move agrees with the board when its target square is empty (no
    capture) or holds the recorded kind in the opponent's color. *)
Definition lands_on (b : list (list string)) (mover : Color) (m : Move)
  : Prop :=
  square_at b (target_column m) (target_row m)
  = Some match capture m with
         | None => Empty
         | Some k => Occupied (opponent mover) k
         end.

(** The Ray Walker as the specification words it: from a square, add the
    direction; off the board or out of steps ends the ray; an empty
    square gives a plain move and the ray goes on; an opposing piece
    gives a capture and ends the ray; an own piece ends it silently. *)
Fixpoint ray (b : list (list string)) (mover : Color) (dc dr : Z)
         (steps : nat) (column row : Z) : list Move :=
  match steps with
  | O => []
  | S steps' =>
      let c := column + dc in
      let r := row + dr in
      match square_at b c r with
      | None => []
      | Some Empty => mkMove c r None false :: ray b mover dc dr steps' c r
      | Some (Occupied oc k) =>
          if color_eqb oc mover then []
          else [mkMove c r (Some k) false]
      end
  end.

Definition kind_eqb (k l : Kind) : bool :=
  String.eqb (kind_code k) (kind_code l).

Definition move_eqb (m n : Move) : bool :=
  (target_column m =? target_column n)
  && (target_row m =? target_row n)
  && match capture m, capture n with
     | None, None => true
     | Some k, Some l => kind_eqb k l
     | _, _ => false
     end
  && Bool.eqb (promotion m) (promotion n).

(** The Ray Walker started from a piece's square: a piece that does not
    stand on the board reaches nothing. *)
Definition walker (b : list (list string)) (mover : Color) (dc dr : Z)
           (steps : nat) (column row : Z) : list Move :=
  if in_board column row then ray b mover dc dr steps column row else [].

(** A report string that stands for a move agreeing with the board. *)
Definition report_of (b : list (list string)) (mover : Color) (s : string)
  : Prop :=
  exists m, s = render m /\ lands_on b mover m.

(** The moves a list of report strings stands for. *)
Definition emits (ms : list string) (m : Move) : Prop :=
  exists s, In s ms /\ parse_move s = Some m.

(** The pawn's geometry: forward direction, starting row, far row. *)
Definition forward (mover : Color) : Z :=
  match mover with White => -1 | Black => 1 end.

Definition start_row (mover : Color) : Z :=
  match mover with White => 6 | Black => 1 end.

Definition promotion_row (mover : Color) : Z :=
  match mover with White => 0 | Black => 7 end.

Definition is_capture (m : Move) : bool :=
  match capture m with Some _ => true | None => false end.

Definition promoted (m : Move) : Move :=
  mkMove (target_column m) (target_row m) (capture m) true.

Definition flag_promotion (mover : Color) (m : Move) : Move :=
  if target_row m =? promotion_row mover then promoted m else m.

(** The moves [pawn_moves] reports, as moves: the forward walk without
    its capture, the captures of the two diagonal walks, then the
    promotion flags. *)
Definition pawn_list (b : list (list string)) (mover : Color) (c r : Z)
  : list Move :=
  map (flag_promotion mover)
      (filter (fun m => negb (is_capture m))
              (walker b mover 0 (forward mover)
                      (if r =? start_row mover then 2%nat else 1%nat) c r)
       ++ filter is_capture (walker b mover 1 (forward mover) 1 c r)
       ++ filter is_capture (walker b mover (-1) (forward mover) 1 c r)).

(** The variables a pass through the loop body leaves behind. *)
Definition vars_of (p : pass) : walk_vars :=
  match p with Again v | Break v => v end.

(** A white rook on a8 and a black pawn on a3, nothing else. *)
Definition rook_board : list (list string) :=
  [ "wr" :: repeat "x" 7;
    empty_row; empty_row; empty_row; empty_row;
    "bp" :: repeat "x" 7;
    empty_row; empty_row ]%string.

(** The pawn rule of the specification, before promotion flags: one
    square forward onto an empty square, two squares forward from the
    starting row over two empty squares, one square diagonally forward
    onto an opposing piece. *)
Inductive pawn_step (b : list (list string)) (mover : Color) (c r : Z)
  : Move -> Prop :=
| step_one :
    square_at b c (r + forward mover) = Some Empty ->
    pawn_step b mover c r (mkMove c (r + forward mover) None false)
| step_two :
    r = start_row mover ->
    square_at b c (r + forward mover) = Some Empty ->
    square_at b c (r + 2 * forward mover) = Some Empty ->
    pawn_step b mover c r (mkMove c (r + 2 * forward mover) None false)
| step_take (d : Z) (k : Kind) :
    d = 1 \/ d = -1 ->
    square_at b (c + d) (r + forward mover)
    = Some (Occupied (opponent mover) k) ->
    pawn_step b mover c r (mkMove (c + d) (r + forward mover) (Some k) false).

(** A black pawn on b2 next to a white rook on a1, nothing else. *)
Definition promotion_board : list (list string) :=
  [ empty_row; empty_row; empty_row; empty_row; empty_row; empty_row;
    ["x"; "bp"; "x"; "x"; "x"; "x"; "x"; "x"];
    ["wr"; "x"; "x"; "x"; "x"; "x"; "x"; "x"] ]%string.

(** The moves the constructor stores in a piece. *)
Definition moves_of (b : list (list string)) (p : Piece) : list string :=
  match find_moves b p with
  | Return ms => ms
  | _ => []
  end.

(** The piece the collector builds for a square: one when the square
    holds a piece of the color asked for, none otherwise. *)
Definition piece_at (b : list (list string)) (mover : Color) (c r : Z)
  : list Piece :=
  match square_at b c r with
  | Some (Occupied oc k) =>
      if color_eqb oc mover
      then [mkPiece (color_name mover) (kind_name k) c r
                    (moves_of b (mkPiece (color_name mover) (kind_name k)
                                         c r []))]
      else []
  | _ => []
  end.

(** Scan order of the collector: rows 0 to 7 for White and 7 to 0 for
    Black, and within a row columns 0 to 7. *)
Definition scan_rows (mover : Color) : list Z :=
  match mover with White => range 8 | Black => rev (range 8) end.

Definition row_before (mover : Color) (r r' : Z) : Prop :=
  match mover with White => r < r' | Black => r' < r end.

Definition scanned_before (mover : Color) (p q : Piece) : Prop :=
  row_before mover (row p) (row q)
  \/ (row p = row q /\ column p < column q).

(** An empty board, and a board with one token placed on it. *)
Definition empty_board : list (list string) := repeat empty_row 8.

Definition place (t : string) (c r : nat) (b : list (list string))
  : list (list string) :=
  set_item b r (set_item (nth r b []) c t).

(** The eight L-shaped offsets of a knight, and the number of them that
    stay on the board from a square: the knight-mobility table. *)
Definition canonical_offsets : list (Z * Z) :=
  [(1, 2); (1, -2); (-1, 2); (-1, -2); (2, 1); (2, -1); (-2, 1); (-2, -1)].

Definition knight_mobility (c r : Z) : nat :=
  List.length (filter (fun d => in_board (c + fst d) (r + snd d))
                      canonical_offsets).

Definition offset_eqb (d e : Z * Z) : bool :=
  (fst d =? fst e) && (snd d =? snd e).

(** ** The rest of the program: display, [Piece.__str__] and the main
    block *)

Definition newline : string := String (ascii_of_nat 10) EmptyString.

(** [t.format( *args )] for a template whose only braces are [{}] fields,
    as all templates of the program are: each field takes the next
    argument, a field with no argument left raises IndexError, arguments
    left over are dropped. *)
Fixpoint format_auto (t : string) (args : list string) : run string :=
  match t with
  | EmptyString => Return EmptyString
  | String c t1 =>
      match t1 with
      | EmptyString => Return (String c EmptyString)
      | String d t2 =>
          if Ascii.eqb c "{" && Ascii.eqb d "}" then
            match args with
            | [] => Raise IndexError
            | a :: args' =>
                r <- format_auto t2 args' ;; Return (a ++ r)%string
            end
          else r <- format_auto t1 args ;; Return (String c r)
      end
  end.

(** [sep.join(l)]. *)
Fixpoint join (sep : string) (l : list string) : string :=
  match l with
  | [] => EmptyString
  | [a] => a
  | a :: l' => (a ++ sep ++ join sep l')%string
  end.

(** [s.split(sep)] for a separator of one character. *)
Fixpoint split_on (sep : ascii) (s : string) : list string :=
  match s with
  | EmptyString => [EmptyString]
  | String c s' =>
      if Ascii.eqb c sep then EmptyString :: split_on sep s'
      else match split_on sep s' with
           | [] => [String c EmptyString]
           | w :: ws => String c w :: ws
           end
  end.

(** The padding pass of [labeled_board]: [enumerate] reads the list as
    it stands at each index and the body overwrites the entry read. *)
Fixpoint pad_from (count index : nat) (spaces : list string) : list string :=
  match count with
  | O => spaces
  | S count' =>
      match nth_error spaces index with
      | None => spaces
      | Some space =>
          let spaces' :=
            if String.eqb space "x"
            then set_item spaces index " x "%string
            else set_item spaces index (" " ++ space)%string in
          pad_from count' (S index) spaces'
      end
  end.

Definition output_board : string :=
  ("   a   b   c   d   e   f   g   h" ++ newline ++
   "8 {} {} {} {} {} {} {} {}" ++ newline ++
   "7 {} {} {} {} {} {} {} {}" ++ newline ++
   "6 {} {} {} {} {} {} {} {}" ++ newline ++
   "5 {} {} {} {} {} {} {} {}" ++ newline ++
   "4 {} {} {} {} {} {} {} {}" ++ newline ++
   "3 {} {} {} {} {} {} {} {}" ++ newline ++
   "2 {} {} {} {} {} {} {} {}" ++ newline ++
   "1 {} {} {} {} {} {} {} {}")%string.

Definition labeled_board (board : list (list string)) : run string :=
  let spaces := List.concat board in
  let spaces := pad_from (List.length spaces) 0 spaces in
  format_auto output_board spaces.

(** [Piece.__str__]. *)
Definition Piece_str (self : Piece) : run string :=
  let name := title (name self) in
  position <- readable_position (column self) (row self) ;;
  format_auto "{} ({})" [name; position].

(** The console the main block talks to: the lines still to be read and
    what each [print] has written, oldest first. *)
Record console : Type := mkConsole {
  stdin : list string;
  stdout : list string
}.

(** How a statement of the main block ends: a value, an exception of the
    functions it calls, [raw_input] at end of input, or a loop of the
    callee out of fuel. *)
Inductive io_result (A : Type) : Type :=
| Value (a : A)
| Failure (e : exn)
| EOFError
| Unfinished.
Arguments Value {A} a.
Arguments Failure {A} e.
Arguments EOFError {A}.
Arguments Unfinished {A}.

Definition io (A : Type) : Type := console -> io_result A * console.

Definition io_bind {A B : Type} (m : io A) (k : A -> io B) : io B :=
  fun w => match m w with
           | (Value a, w') => k a w'
           | (Failure e, w') => (Failure e, w')
           | (EOFError, w') => (EOFError, w')
           | (Unfinished, w') => (Unfinished, w')
           end.

Notation "x <~ m ;; k" := (io_bind m (fun x => k))
  (at level 61, m at next level, right associativity).

Definition io_return {A : Type} (a : A) : io A := fun w => (Value a, w).

(** [print s]; the bare [print] writes the empty line. *)
Definition print (s : string) : io unit :=
  fun w => (Value tt, mkConsole (stdin w) (stdout w ++ [s])).

Definition raw_input : io string :=
  fun w => match stdin w with
           | [] => (EOFError, w)
           | line :: rest => (Value line, mkConsole rest (stdout w))
           end.

(** A call into the functions above. *)
Definition call {A : Type} (r : run A) : io A :=
  fun w => match r with
           | Return a => (Value a, w)
           | Raise e => (Failure e, w)
           | OutOfFuel => (Unfinished, w)
           end.

(** [[raw_input().split(',') for _ in range(n)]]. *)
Fixpoint read_rows (n : nat) : io (list (list string)) :=
  match n with
  | O => io_return []
  | S n' =>
      line <~ raw_input ;;
      rows <~ read_rows n' ;;
      io_return (split_on "," line :: rows)
  end.

(** [for p in available_pieces: print '{}: {}'.format(p, ', '.join(p.moves))]. *)
Fixpoint print_moves (available_pieces : list Piece) : io unit :=
  match available_pieces with
  | [] => io_return tt
  | p :: rest =>
      line <~ call (str_p <- Piece_str p ;;
                    format_auto "{}: {}" [str_p; join ", " (moves p)]) ;;
      _ <~ print line ;;
      print_moves rest
  end.

Definition main : io unit :=
  _ <~ print "" ;;
  _ <~ print "Please provide the current configuration of a chess board:" ;;
  board <~ read_rows 8 ;;
  _ <~ print "" ;;
  _ <~ print "Who's turn is it? Type w or b for white or black: " ;;
  color <~ raw_input ;;
  available_pieces <~ call (find_pieces board color) ;;
  _ <~ print "" ;;
  _ <~ print "" ;;
  _ <~ print "***** CURRENT BOARD *****" ;;
  _ <~ print "" ;;
  text <~ call (labeled_board board) ;;
  _ <~ print text ;;
  _ <~ print "" ;;
  _ <~ print "***** AVAILABLE MOVES *****" ;;
  _ <~ print "" ;;
  print_moves available_pieces.

(** The input the main block expects for a board and a color. *)
Definition board_lines (b : list (list string)) : list string :=
  map (join ",") b.

(** The squares strictly between a square and the [j]-th square along a
    direction are all empty. *)
Definition clear_path (b : list (list string)) (dc dr c r j : Z) : Prop :=
  forall i, 1 <= i < j -> square_at b (c + i * dc) (r + i * dr) = Some Empty.

(** A move lands [j] steps along a direction from a square, over empty
    squares only. *)
Definition reached (b : list (list string)) (mover : Color) (dc dr c r : Z)
           (j : Z) (m : Move) : Prop :=
  target_column m = c + j * dc
  /\ target_row m = r + j * dr
  /\ promotion m = false
  /\ clear_path b dc dr c r j
  /\ lands_on b mover m.

(** The direction vectors and the travel distance the tables of
    [find_moves] give a piece name (none for a name that is not in
    [move_options]). *)
Definition directions_of (n : string) : list (Z * Z) :=
  match lookup move_options n with
  | Return (paths, _) =>
      flat_map (fun path => match lookup move_changes path with
                            | Return d => [d]
                            | _ => []
                            end) paths
  | _ => []
  end.

Definition reach_of (n : string) : Z :=
  match lookup move_options n with
  | Return (_, d) => d
  | _ => 0
  end.

(** The number of [{}] fields of a template. *)
Fixpoint fields (t : string) : nat :=
  match t with
  | EmptyString => O
  | String c t1 =>
      match t1 with
      | EmptyString => O
      | String d t2 =>
          if Ascii.eqb c "{" && Ascii.eqb d "}" then S (fields t2)
          else fields t1
      end
  end.

(** A cell as the board display shows it, three characters wide for a
    token of the board parser, and a row of the display: the rank digit,
    then each cell after a blank. *)
Definition padded (space : string) : string :=
  if String.eqb space "x" then " x "%string else (" " ++ space)%string.

Fixpoint cells_text (cells : list string) : string :=
  match cells with
  | [] => EmptyString
  | t :: rest => (" " ++ padded t ++ cells_text rest)%string
  end.

Definition board_line (rank : string) (cells : list string) : string :=
  (rank ++ cells_text cells)%string.

Definition header_line : string := "   a   b   c   d   e   f   g   h".

Definition rank_digits : list string :=
  ["8"; "7"; "6"; "5"; "4"; "3"; "2"; "1"]%string.

(** A string without a given character. *)
Definition free_of (c : ascii) (s : string) : Prop :=
  ~ In c (list_ascii_of_string s).

(** The line the main block prints for a piece. *)
Definition report_line (p : Piece) : string :=
  (title (name p) ++ " (" ++ file_letter (column p) ++ rank_digit (row p)
   ++ "): " ++ join ", " (moves p))%string.

(** What the main block prints before it reads the board, before it
    reads the color, and around the board display. *)
Definition board_prompt : list string :=
  [""; "Please provide the current configuration of a chess board:"]%string.

Definition color_prompt : list string :=
  [""; "Who's turn is it? Type w or b for white or black: "]%string.

Definition board_banner : list string :=
  [""; ""; "***** CURRENT BOARD *****"; ""]%string.

Definition moves_banner : list string :=
  [""; "***** AVAILABLE MOVES *****"; ""]%string.

(** The walks [find_moves] asks of [walk] for a piece, as direction and
    travel distance: those of its [move_options] entry; for a pawn the
    forward walk and the two diagonal walks of [pawn_moves], by its
    color and row; for any other name the walks of [knight_moves]. *)
Definition walks_of (piece : Piece) : list ((Z * Z) * Z) :=
  if str_in_list (name piece) (keys move_options) then
    map (fun d => (d, reach_of (name piece))) (directions_of (name piece))
  else if String.eqb (name piece) "pawn" then
    if String.eqb (color piece) "white"
    then [((0, -1), if row piece =? 6 then 2 else 1);
          ((1, -1), 1); ((-1, -1), 1)]
    else [((0, 1), if row piece =? 1 then 2 else 1);
          ((1, 1), 1); ((-1, 1), 1)]
  else map (fun d => (d, 1)) knight_options.

(** ** The Python runtime on in-range arguments *)

Lemma bind_Return {A B : Type} (a : A) (k : A -> run B) :
  bind (Return a) k = k a.
Proof. reflexivity. Qed.

Lemma string_app_assoc (s t u : string) :
  ((s ++ t) ++ u = s ++ (t ++ u))%string.
Proof. induction s as [|a s IH]; simpl; [reflexivity | now rewrite IH]. Qed.

Lemma string_app_empty (s : string) : (s ++ "")%string = s.
Proof. induction s as [|a s IH]; simpl; [reflexivity | now rewrite IH]. Qed.

Lemma in_range8_iff (i : Z) : in_range8 i = true <-> 0 <= i <= 7.
Proof.
  unfold in_range8, range; simpl.
  rewrite !orb_true_iff, !Z.eqb_eq. lia.
Qed.

Lemma in_board_iff (c r : Z) :
  in_board c r = true <-> (0 <= c <= 7 /\ 0 <= r <= 7).
Proof. unfold in_board. rewrite !andb_true_iff, !Z.leb_le. lia. Qed.

Lemma in_board_range8 (c r : Z) :
  in_board c r = in_range8 c && in_range8 r.
Proof.
  apply eq_true_iff_eq.
  rewrite andb_true_iff, in_board_iff, !in_range8_iff. tauto.
Qed.

Lemma index_nth_error {A : Type} (l : list A) (i : Z) (a : A) :
  0 <= i -> nth_error l (Z.to_nat i) = Some a -> index l i = Return a.
Proof.
  intros Hi Hn. unfold index.
  assert (Hlt : (Z.to_nat i < List.length l)%nat)
    by (apply nth_error_Some; congruence).
  replace (i <? 0) with false by (symmetry; apply Z.ltb_ge; lia).
  replace (0 <=? i) with true by (symmetry; apply Z.leb_le; lia).
  replace (i <? Z.of_nat (List.length l)) with true
    by (symmetry; apply Z.ltb_lt; lia).
  simpl. now rewrite Hn.
Qed.

Lemma small_cases (i : Z) :
  0 <= i <= 7 ->
  i = 0 \/ i = 1 \/ i = 2 \/ i = 3 \/ i = 4 \/ i = 5 \/ i = 6 \/ i = 7.
Proof. lia. Qed.

Ltac each_of_eight H :=
  apply small_cases in H;
  destruct H as [H|[H|[H|[H|[H|[H|[H|H]]]]]]]; subst.

Lemma readable_position_in_board (c r : Z) :
  in_board c r = true ->
  readable_position c r = Return (file_letter c ++ rank_digit r)%string.
Proof.
  intros H. apply in_board_iff in H. destruct H as [Hc Hr].
  each_of_eight Hc; each_of_eight Hr; reflexivity.
Qed.

(** ** Reading the board *)

Lemma parse_token_Some (t : string) (sq : Square) :
  parse_token t = Some sq -> t = token sq.
Proof.
  unfold parse_token. intros H. apply find_some in H.
  destruct H as [_ H]. apply String.eqb_eq in H. congruence.
Qed.

Lemma square_at_Some (b : list (list string)) (c r : Z) (sq : Square) :
  square_at b c r = Some sq ->
  in_board c r = true /\
  exists cells, nth_error b (Z.to_nat r) = Some cells /\
                nth_error cells (Z.to_nat c) = Some (token sq).
Proof.
  unfold square_at. destruct (in_board c r); [|discriminate].
  destruct (nth_error b (Z.to_nat r)) as [cells|]; [|discriminate].
  destruct (nth_error cells (Z.to_nat c)) as [t|] eqn:Ht; [|discriminate].
  intros H. apply parse_token_Some in H. subst t. eauto.
Qed.

Lemma valid_board_square (b : list (list string)) (c r : Z) :
  valid_board b = true -> in_board c r = true ->
  exists sq, square_at b c r = Some sq.
Proof.
  unfold valid_board, square_at. intros Hb Hin. rewrite Hin.
  apply in_board_iff in Hin. destruct Hin as [Hc Hr].
  apply andb_true_iff in Hb. destruct Hb as [Hlen Hrows].
  apply Nat.eqb_eq in Hlen.
  destruct (nth_error b (Z.to_nat r)) as [cells|] eqn:Hcells.
  - rewrite forallb_forall in Hrows.
    specialize (Hrows cells (nth_error_In _ _ Hcells)).
    apply andb_true_iff in Hrows. destruct Hrows as [Hl Hcs].
    apply Nat.eqb_eq in Hl.
    destruct (nth_error cells (Z.to_nat c)) as [t|] eqn:Ht.
    + rewrite forallb_forall in Hcs.
      specialize (Hcs t (nth_error_In _ _ Ht)).
      destruct (parse_token t) as [sq|]; [eauto | discriminate].
    + apply nth_error_None in Ht. lia.
  - apply nth_error_None in Hcells. lia.
Qed.

Lemma board_lookup (b : list (list string)) (c r : Z) (sq : Square) :
  square_at b c r = Some sq ->
  (cells <- index b r ;; index cells c) = Return (token sq).
Proof.
  intros H. apply square_at_Some in H.
  destruct H as [Hin [cells [Hr Hc]]]. apply in_board_iff in Hin.
  rewrite (index_nth_error b r cells) by (lia || assumption).
  rewrite bind_Return. apply index_nth_error; [lia | assumption].
Qed.

(** What [space_check] does on a square of the board. *)
Lemma space_check_at (b : list (list string)) (moves : list string)
      (mover : Color) (c r : Z) (sq : Square) :
  square_at b c r = Some sq ->
  space_check b moves (color_name mover) c r
  = Return match sq with
           | Empty => (moves ++ [render (mkMove c r None false)], false)
           | Occupied oc k =>
               if color_eqb oc mover then (moves, true)
               else (moves ++ [render (mkMove c r (Some k) false)], true)
           end.
Proof.
  intros H. pose proof (square_at_Some _ _ _ _ H) as [Hin [cells [Hr Hc]]].
  pose proof Hin as Hin'. apply in_board_iff in Hin'.
  unfold space_check.
  rewrite (index_nth_error b r cells) by (lia || assumption).
  rewrite bind_Return.
  rewrite (index_nth_error cells c (token sq)) by (lia || assumption).
  rewrite bind_Return.
  destruct sq as [|oc k].
  - change (str_index (token Empty) 0) with (Return "x"%string).
    rewrite bind_Return. change (String.eqb "x" "x") with true. cbv iota.
    rewrite readable_position_in_board by assumption.
    rewrite bind_Return. unfold render; simpl.
    now rewrite string_app_empty.
  - destruct oc, mover, k; simpl;
      rewrite ?readable_position_in_board by assumption;
      rewrite ?bind_Return; unfold render; simpl;
      rewrite ?string_app_assoc; reflexivity.
Qed.

(** ** The loop of [walk] *)

Section Walk.

Variable b : list (list string).

Lemma walk_test_true (v : walk_vars) :
  walk_test v = true <->
  in_board (w_column v) (w_row v) = true /\ 0 < w_max_distance v.
Proof.
  unfold walk_test. rewrite !andb_true_iff, in_board_range8, andb_true_iff.
  rewrite Z.gtb_ltb, Z.ltb_lt. tauto.
Qed.

Lemma walk_test_false (v : walk_vars) :
  walk_test v = false <->
  in_board (w_column v) (w_row v) = false \/ w_max_distance v <= 0.
Proof.
  rewrite <- not_true_iff_false, walk_test_true.
  destruct (in_board (w_column v) (w_row v)).
  - split.
    + intros H. right.
      destruct (Z_lt_le_dec 0 (w_max_distance v)); [|assumption].
      exfalso. apply H. auto.
    + intros [H|H] [_ H']; [discriminate | lia].
  - split; [auto | intros _ [H _]; discriminate].
Qed.

(** Once [stop] is set the loop leaves the moves as they are. *)
Lemma walk_loop_stopped (fuel : nat) (color : string) (dc dr : Z)
      (v : walk_vars) :
  w_stop v = true ->
  (Z.to_nat (w_max_distance v) <= fuel)%nat ->
  exists v', walk_loop b fuel color dc dr v = Return v'
             /\ w_moves v' = w_moves v.
Proof.
  intros Hstop Hfuel.
  destruct (walk_test v) eqn:Ht.
  - apply walk_test_true in Ht as Ht'. destruct Ht' as [_ Hmd].
    destruct fuel as [|fuel]; [lia|].
    simpl. rewrite Ht. unfold walk_body. rewrite Hstop, !orb_true_r.
    rewrite bind_Return. eexists; split; [reflexivity | reflexivity].
  - destruct fuel; simpl; rewrite Ht; eauto.
Qed.

(** With [stop] clear, the loop appends the ray of the specification. *)
Lemma walk_loop_ray (mover : Color) (dc dr : Z) :
  valid_board b = true ->
  forall (fuel : nat) (v : walk_vars),
    w_stop v = false ->
    in_board (w_column v) (w_row v) = true ->
    (Z.to_nat (w_max_distance v) <= fuel)%nat ->
    exists v', walk_loop b fuel (color_name mover) dc dr v = Return v'
               /\ w_moves v'
                  = w_moves v
                    ++ map render (ray b mover dc dr
                                       (Z.to_nat (w_max_distance v))
                                       (w_column v) (w_row v)).
Proof.
  intros Hb. induction fuel as [|fuel IH]; intros v Hstop Hin Hfuel.
  - assert (Hmd : Z.to_nat (w_max_distance v) = 0%nat) by lia.
    rewrite Hmd. simpl. rewrite app_nil_r.
    replace (walk_test v) with false; [eauto|].
    symmetry. apply walk_test_false. right. lia.
  - destruct (walk_test v) eqn:Ht.
    + apply walk_test_true in Ht as Ht'. destruct Ht' as [_ Hmd].
      replace (Z.to_nat (w_max_distance v))
        with (S (Z.to_nat (w_max_distance v + -1))) in * by lia.
      simpl. rewrite Ht. unfold walk_body. rewrite Hstop, orb_false_r.
      rewrite <- negb_andb, <- in_board_range8.
      destruct (in_board (w_column v + dc) (w_row v + dr)) eqn:Hin'.
      * destruct (valid_board_square b _ _ Hb Hin') as [sq Hsq].
        rewrite Hsq. simpl negb. cbv iota.
        rewrite (space_check_at b _ mover _ _ sq Hsq), bind_Return.
        destruct sq as [|oc k].
        -- cbv iota beta. rewrite bind_Return.
           destruct (IH (mkVars (w_column v + dc) (w_row v + dr)
                                (w_max_distance v + -1)
                                (w_moves v
                                 ++ [render (mkMove (w_column v + dc)
                                                    (w_row v + dr)
                                                    None false)])
                                false))
             as [v' [Hv' Hm]]; simpl; try assumption; try lia; try reflexivity.
           exists v'. split; [exact Hv'|].
           rewrite Hm. simpl. now rewrite <- app_assoc.
        -- destruct (color_eqb oc mover); cbv iota beta;
             rewrite bind_Return.
           ++ destruct (walk_loop_stopped fuel (color_name mover) dc dr
                          (mkVars (w_column v + dc) (w_row v + dr)
                                  (w_max_distance v + -1) (w_moves v) true))
                as [v' [Hv' Hm]]; simpl; try reflexivity; try lia.
              exists v'. split; [exact Hv'|].
              rewrite Hm. simpl. now rewrite app_nil_r.
           ++ destruct (walk_loop_stopped fuel (color_name mover) dc dr
                          (mkVars (w_column v + dc) (w_row v + dr)
                                  (w_max_distance v + -1)
                                  (w_moves v
                                   ++ [render (mkMove (w_column v + dc)
                                                      (w_row v + dr)
                                                      (Some k) false)])
                                  true))
                as [v' [Hv' Hm]]; simpl; try reflexivity; try lia.
              exists v'. split; [exact Hv'|].
              rewrite Hm. reflexivity.
      * simpl negb. cbv iota. rewrite bind_Return.
        eexists. split; [reflexivity|]. simpl.
        unfold square_at. rewrite Hin'. simpl. now rewrite app_nil_r.
    + apply walk_test_false in Ht as Ht'.
      destruct Ht' as [Ht'|Ht']; [congruence|].
      replace (Z.to_nat (w_max_distance v)) with 0%nat by lia.
      simpl. rewrite Ht, app_nil_r. eauto.
Qed.

End Walk.

(** ** Report strings and moves *)

Lemma move_eqb_eq (m n : Move) : move_eqb m n = true -> m = n.
Proof.
  destruct m as [c r k p], n as [c' r' k' p']. unfold move_eqb; simpl.
  rewrite !andb_true_iff, !Z.eqb_eq. intros [[[-> ->] Hk] Hp].
  apply Bool.eqb_prop in Hp. subst p'.
  destruct k as [k|], k' as [k'|]; try discriminate; [|reflexivity].
  destruct k, k'; try discriminate; reflexivity.
Qed.

Lemma in_range (i : Z) : 0 <= i <= 7 -> In i (range 8).
Proof. intros H. each_of_eight H; simpl; tauto. Qed.

Lemma range_in (i : Z) : In i (range 8) -> 0 <= i <= 7.
Proof. simpl. intros H. lia. Qed.

Lemma in_all_moves (c r : Z) (k : option Kind) (p : bool) :
  in_board c r = true -> In (mkMove c r k p) all_moves.
Proof.
  intros H. apply in_board_iff in H. destruct H as [Hc Hr].
  unfold all_moves.
  apply in_flat_map. exists c. split; [now apply in_range|].
  apply in_flat_map. exists r. split; [now apply in_range|].
  apply in_flat_map. exists k. split.
  - destruct k as [[]|]; simpl; tauto.
  - destruct p; simpl; tauto.
Qed.

(** Distinct moves have distinct report strings. *)
Lemma parse_render_all :
  forallb (fun m => match parse_move (render m) with
                    | Some n => move_eqb n m
                    | None => false
                    end) all_moves = true.
Proof. vm_compute. reflexivity. Qed.

Lemma parse_render (m : Move) :
  in_board (target_column m) (target_row m) = true ->
  parse_move (render m) = Some m.
Proof.
  intros H. pose proof parse_render_all as Hall.
  rewrite forallb_forall in Hall.
  destruct m as [c r k p]. simpl in H.
  specialize (Hall _ (in_all_moves c r k p H)).
  destruct (parse_move (render (mkMove c r k p))); [|discriminate].
  now apply move_eqb_eq in Hall; subst.
Qed.

(** The specification's ray only holds moves that agree with the board. *)
Lemma ray_lands (b : list (list string)) (mover : Color) (dc dr : Z)
      (steps : nat) :
  forall (c r : Z) (m : Move),
    In m (ray b mover dc dr steps c r) ->
    lands_on b mover m /\ promotion m = false.
Proof.
  induction steps as [|steps IH]; intros c r m; simpl; [tauto|].
  destruct (square_at b (c + dc) (r + dr)) as [[|oc k]|] eqn:Hsq;
    simpl; [| |tauto].
  - intros [<-|H]; [|now apply IH in H].
    unfold lands_on; simpl. auto.
  - destruct (color_eqb oc mover) eqn:Hc; simpl; [tauto|].
    intros [<-|[]]. unfold lands_on; simpl. split; [|reflexivity].
    rewrite Hsq. destruct oc, mover; simpl in *; congruence.
Qed.

Lemma lands_on_in_board (b : list (list string)) (mover : Color) (m : Move) :
  lands_on b mover m -> in_board (target_column m) (target_row m) = true.
Proof. unfold lands_on. intros H. now apply square_at_Some in H. Qed.

(** ** [walk] against the Ray Walker of the specification *)

Lemma walk_off_board (b : list (list string)) (piece : Piece)
      (steps : Z * Z) (max_distance : Z) :
  in_board (column piece) (row piece) = false ->
  walk b piece steps max_distance = Return [].
Proof.
  intros H. unfold walk.
  set (v := mkVars _ _ _ _ _).
  assert (Ht : walk_test v = false) by (apply walk_test_false; now left).
  destruct (Z.to_nat max_distance); simpl; rewrite Ht; reflexivity.
Qed.

Lemma walk_moves (b : list (list string)) (piece : Piece) (mover : Color)
      (dc dr max_distance : Z) :
  valid_board b = true ->
  color piece = color_name mover ->
  walk b piece (dc, dr) max_distance
  = Return (map render (walker b mover dc dr (Z.to_nat max_distance)
                               (column piece) (row piece))).
Proof.
  intros Hb Hc. unfold walker.
  destruct (in_board (column piece) (row piece)) eqn:Hin.
  - unfold walk. rewrite Hc. simpl fst; simpl snd.
    destruct (walk_loop_ray b mover dc dr Hb (Z.to_nat max_distance)
                (mkVars (column piece) (row piece) max_distance [] false))
      as [v' [Hv' Hm]]; simpl; try reflexivity; try assumption; try lia.
    rewrite Hv', bind_Return. simpl in Hm. now rewrite Hm.
  - now apply walk_off_board.
Qed.

Lemma walker_lands (b : list (list string)) (mover : Color) (dc dr : Z)
      (steps : nat) (c r : Z) (m : Move) :
  In m (walker b mover dc dr steps c r) ->
  lands_on b mover m /\ promotion m = false.
Proof.
  unfold walker. destruct (in_board c r); [apply ray_lands | intros []].
Qed.

Lemma walk_reports (b : list (list string)) (piece : Piece) (mover : Color)
      (steps : Z * Z) (max_distance : Z) :
  valid_board b = true ->
  color piece = color_name mover ->
  exists ms, walk b piece steps max_distance = Return ms
             /\ Forall (report_of b mover) ms.
Proof.
  intros Hb Hc. destruct steps as [dc dr].
  rewrite (walk_moves b piece mover) by assumption.
  eexists. split; [reflexivity|].
  apply Forall_forall. intros s Hs. apply in_map_iff in Hs.
  destruct Hs as [m [<- Hm]]. exists m. split; [reflexivity|].
  now apply walker_lands in Hm.
Qed.

(** ** [for] loops *)

Lemma for_in_invariant {A S : Type} (I : S -> Prop) (xs : list A)
      (body : S -> A -> run S) :
  (forall s x, In x xs -> I s -> exists s', body s x = Return s' /\ I s') ->
  forall s0, I s0 -> exists s', for_in xs body s0 = Return s' /\ I s'.
Proof.
  induction xs as [|x xs IH]; intros Hbody s0 H0; simpl; [eauto|].
  destruct (Hbody s0 x (or_introl eq_refl) H0) as [s1 [-> H1]].
  rewrite bind_Return. apply IH; [|assumption].
  intros s y Hy. apply Hbody. now right.
Qed.

Lemma for_in_collect {A B : Type} (xs : list A)
      (body : list B -> A -> run (list B)) (g : A -> list B) :
  (forall s x, In x xs -> body s x = Return (s ++ g x)) ->
  forall s0, for_in xs body s0 = Return (s0 ++ flat_map g xs).
Proof.
  induction xs as [|x xs IH]; intros Hbody s0; simpl.
  - now rewrite app_nil_r.
  - rewrite Hbody by now left. rewrite bind_Return.
    rewrite IH by (intros; apply Hbody; now right).
    now rewrite app_assoc.
Qed.

Lemma nth_error_middle {A : Type} (pre post : list A) (a : A) :
  nth_error (pre ++ a :: post) (List.length pre) = Some a.
Proof. induction pre; simpl; auto. Qed.

Lemma set_item_middle {A : Type} (pre post : list A) (a v : A) :
  set_item (pre ++ a :: post) (List.length pre) v = pre ++ v :: post.
Proof. induction pre as [|x pre IH]; simpl; [reflexivity | now rewrite IH]. Qed.

(** The promotion pass rewrites each entry on its own. *)
Lemma promote_from_map (promotion_row : string) (ms : list string) :
  promote_from (List.length ms) 0 promotion_row ms
  = map (fun space => if contains promotion_row space
                      then ("Promote on " ++ space)%string else space) ms.
Proof.
  set (f := fun space : string => _).
  enough (H : forall post pre,
             promote_from (List.length post) (List.length pre) promotion_row
                          (pre ++ post) = pre ++ map f post)
    by (apply (H ms [])).
  induction post as [|a post IH]; intros pre; simpl.
  - reflexivity.
  - rewrite nth_error_middle.
    specialize (IH (pre ++ [f a])).
    rewrite length_app, Nat.add_1_r, <- !app_assoc in IH. simpl in IH.
    rewrite <- IH. f_equal. unfold f.
    destruct (contains promotion_row a).
    + now rewrite set_item_middle.
    + reflexivity.
Qed.

(** ** Substring tests on report strings *)

Lemma report_tests_all :
  forallb (fun m =>
             Bool.eqb (contains "Capture" (render m)) (is_capture m)
             && Bool.eqb (contains "8" (render m)) (target_row m =? 0)
             && Bool.eqb (contains "1" (render m)) (target_row m =? 7))
          all_moves = true.
Proof. vm_compute. reflexivity. Qed.

Lemma report_tests (m : Move) :
  in_board (target_column m) (target_row m) = true ->
  contains "Capture" (render m) = is_capture m
  /\ contains "8" (render m) = (target_row m =? 0)
  /\ contains "1" (render m) = (target_row m =? 7).
Proof.
  intros H. pose proof report_tests_all as Hall.
  rewrite forallb_forall in Hall.
  destruct m as [c r k p]. simpl in H.
  specialize (Hall _ (in_all_moves c r k p H)).
  rewrite !andb_true_iff in Hall. destruct Hall as [[H1 H2] H3].
  apply Bool.eqb_prop in H1, H2, H3. auto.
Qed.

Lemma contains_promotion_row (mover : Color) (m : Move) :
  in_board (target_column m) (target_row m) = true ->
  contains (match mover with White => "8" | Black => "1" end) (render m)
  = (target_row m =? promotion_row mover).
Proof.
  intros H. destruct (report_tests m H) as [_ [H8 H1]].
  destruct mover; assumption.
Qed.

Lemma render_promoted (m : Move) :
  promotion m = false ->
  ("Promote on " ++ render m)%string = render (promoted m).
Proof. unfold render. intros ->. reflexivity. Qed.

Lemma filter_map_render (f : string -> bool) (g : Move -> bool)
      (L : list Move) :
  (forall m, In m L -> f (render m) = g m) ->
  filter f (map render L) = map render (filter g L).
Proof.
  induction L as [|m L IH]; intros H; simpl; [reflexivity|].
  rewrite (H m) by now left.
  rewrite IH by (intros; apply H; now right).
  now destruct (g m).
Qed.

Lemma walker_in_board (b : list (list string)) (mover : Color) (dc dr : Z)
      (steps : nat) (c r : Z) (m : Move) :
  In m (walker b mover dc dr steps c r) ->
  in_board (target_column m) (target_row m) = true.
Proof.
  intros H. apply walker_lands in H. destruct H as [H _].
  now apply lands_on_in_board in H.
Qed.

Lemma filter_captures (b : list (list string)) (mover : Color) (dc dr : Z)
      (steps : nat) (c r : Z) :
  filter (contains "Capture") (map render (walker b mover dc dr steps c r))
  = map render (filter is_capture (walker b mover dc dr steps c r)).
Proof.
  apply filter_map_render. intros m Hm.
  apply walker_in_board in Hm. now apply report_tests in Hm.
Qed.

Lemma filter_plain (b : list (list string)) (mover : Color) (dc dr : Z)
      (steps : nat) (c r : Z) :
  filter (fun move => negb (contains "Capture" move))
         (map render (walker b mover dc dr steps c r))
  = map render (filter (fun m => negb (is_capture m))
                       (walker b mover dc dr steps c r)).
Proof.
  apply filter_map_render. intros m Hm.
  apply walker_in_board in Hm. apply report_tests in Hm.
  destruct Hm as [-> _]. reflexivity.
Qed.

(** [pawn_moves] reports exactly the moves of [pawn_list]. *)
Lemma pawn_moves_list (b : list (list string)) (piece : Piece)
      (mover : Color) :
  valid_board b = true ->
  color piece = color_name mover ->
  pawn_moves b piece
  = Return (map render (pawn_list b mover (column piece) (row piece))).
Proof.
  intros Hb Hc. unfold pawn_moves, pawn_list. rewrite Hc.
  set (c := column piece). set (r := row piece).
  assert (Hflag :
            forall L pr,
              pr = match mover with White => "8" | Black => "1" end%string ->
              (forall m, In m L ->
                         in_board (target_column m) (target_row m) = true
                         /\ promotion m = false) ->
              promote_from (List.length (map render L)) 0 pr (map render L)
              = map render (map (flag_promotion mover) L)).
  { intros L pr -> HL. rewrite promote_from_map, !map_map.
    apply map_ext_in. intros m Hm. destruct (HL m Hm) as [Hin Hp].
    rewrite contains_promotion_row by assumption.
    unfold flag_promotion.
    destruct (target_row m =? promotion_row mover);
      [now apply render_promoted | reflexivity]. }
  assert (Hsub : forall f dc dr n m,
             In m (filter f (walker b mover dc dr n c r)) ->
             in_board (target_column m) (target_row m) = true
             /\ promotion m = false).
  { intros f dc dr n m Hm. apply filter_In in Hm. destruct Hm as [Hm _].
    split; [now apply walker_in_board in Hm | now apply walker_lands in Hm]. }
  destruct mover; simpl color_name; simpl String.eqb; cbv iota beta zeta;
    rewrite (walk_moves b piece _ _ _ _ Hb Hc), bind_Return;
    simpl for_in;
    rewrite !(walk_moves b piece _ _ _ _ Hb Hc), !bind_Return;
    rewrite filter_plain, !filter_captures, <- !map_app;
    fold c r; simpl forward; simpl start_row.
  - destruct (r =? 6); (rewrite <- app_assoc, Hflag;
      [reflexivity | reflexivity
       | intros m Hm; apply in_app_or in Hm; destruct Hm as [Hm|Hm];
         [|apply in_app_or in Hm; destruct Hm as [Hm|Hm]];
         eapply Hsub; eassumption]).
  - destruct (r =? 1); (rewrite <- app_assoc, Hflag;
      [reflexivity | reflexivity
       | intros m Hm; apply in_app_or in Hm; destruct Hm as [Hm|Hm];
         [|apply in_app_or in Hm; destruct Hm as [Hm|Hm]];
         eapply Hsub; eassumption]).
Qed.

(** ** Every report of [find_moves] agrees with the board *)

Lemma lands_on_flag (b : list (list string)) (mover : Color) (m : Move) :
  lands_on b mover m -> lands_on b mover (flag_promotion mover m).
Proof.
  unfold flag_promotion.
  destruct (target_row m =? promotion_row mover); auto.
Qed.

Lemma pawn_list_lands (b : list (list string)) (mover : Color) (c r : Z)
      (m : Move) :
  In m (pawn_list b mover c r) -> lands_on b mover m.
Proof.
  unfold pawn_list. intros H. apply in_map_iff in H.
  destruct H as [m0 [<- H]]. apply lands_on_flag.
  apply in_app_or in H. destruct H as [H|H];
    [|apply in_app_or in H; destruct H as [H|H]];
    apply filter_In in H; destruct H as [H _];
    now apply walker_lands in H.
Qed.

Lemma lookup_in_keys {V : Type} (d : list (string * V)) (k : string) :
  str_in_list k (keys d) = true ->
  exists v, lookup d k = Return v /\ In (k, v) d.
Proof.
  unfold str_in_list, keys.
  induction d as [|[k' v] d IH]; simpl; [discriminate|].
  rewrite (String.eqb_sym k k').
  destruct (String.eqb_spec k' k) as [->|Hne]; simpl.
  - intros _. exists v. auto.
  - intros H. destruct (IH H) as [v' [Hl Hin]]. eauto.
Qed.

Lemma path_known (name path : string) (paths : list string) (d : Z) :
  In (name, (paths, d)) move_options -> In path paths ->
  exists step, lookup move_changes path = Return step.
Proof.
  unfold move_options. simpl.
  intros [H|[H|[H|[H|[]]]]] Hp; inversion H; subst; simpl in Hp;
    repeat (destruct Hp as [<-|Hp]; [eexists; reflexivity|]);
    destruct Hp.
Qed.

Lemma find_moves_reports (b : list (list string)) (piece : Piece)
      (mover : Color) :
  valid_board b = true ->
  color piece = color_name mover ->
  exists ms, find_moves b piece = Return ms
             /\ Forall (report_of b mover) ms.
Proof.
  intros Hb Hc. unfold find_moves.
  destruct (str_in_list (name piece) (keys move_options)) eqn:Hk.
  - apply lookup_in_keys in Hk. destruct Hk as [[paths d] [-> Hin]].
    rewrite bind_Return.
    apply for_in_invariant; [|constructor].
    intros s path Hp Hs.
    destruct (path_known _ _ _ _ Hin Hp) as [step ->]. rewrite bind_Return.
    destruct (walk_reports b piece mover step d Hb Hc) as [w [-> Hw]].
    rewrite bind_Return. eexists. split; [reflexivity|].
    apply Forall_app. auto.
  - destruct (String.eqb (name piece) "pawn").
    + rewrite (pawn_moves_list b piece mover Hb Hc).
      eexists. split; [reflexivity|].
      apply Forall_forall. intros s Hs. apply in_map_iff in Hs.
      destruct Hs as [m [<- Hm]]. exists m. split; [reflexivity|].
      now apply pawn_list_lands in Hm.
    + unfold knight_moves. apply for_in_invariant; [|constructor].
      intros s path _ Hs.
      destruct (walk_reports b piece mover path 1 Hb Hc) as [w [-> Hw]].
      rewrite bind_Return. eexists. split; [reflexivity|].
      apply Forall_app. auto.
Qed.

Lemma report_parses (b : list (list string)) (mover : Color) (s : string) :
  report_of b mover s ->
  exists m, parse_move s = Some m /\ lands_on b mover m.
Proof.
  intros [m [-> Hm]]. exists m. split; [|assumption].
  apply parse_render. now apply lands_on_in_board in Hm.
Qed.

Lemma emits_render (L : list Move) (m : Move) :
  (forall n, In n L -> in_board (target_column n) (target_row n) = true) ->
  emits (map render L) m <-> In m L.
Proof.
  intros HL. unfold emits. split.
  - intros [s [Hs Hp]]. apply in_map_iff in Hs. destruct Hs as [n [<- Hn]].
    rewrite parse_render in Hp by auto. congruence.
  - intros Hm. exists (render m). split; [now apply in_map|].
    apply parse_render. auto.
Qed.

(** ** Termination of the loop *)

Lemma bind_finishes {A B : Type} (m : run A) (k : A -> run B) :
  m <> OutOfFuel -> (forall a, k a <> OutOfFuel) -> bind m k <> OutOfFuel.
Proof. destruct m; simpl; auto; discriminate. Qed.

Lemma index_finishes {A : Type} (l : list A) (i : Z) : index l i <> OutOfFuel.
Proof.
  unfold index.
  destruct (_ && _); [destruct (nth_error _ _)|]; discriminate.
Qed.

Lemma str_index_finishes (s : string) (i : Z) : str_index s i <> OutOfFuel.
Proof.
  unfold str_index. apply bind_finishes; [apply index_finishes|discriminate].
Qed.

Lemma lookup_finishes {V : Type} (d : list (string * V)) (k : string) :
  lookup d k <> OutOfFuel.
Proof.
  induction d as [|[k' v] d IH]; simpl; [discriminate|].
  destruct (String.eqb k' k); [discriminate | assumption].
Qed.

Lemma for_in_finishes {A S : Type} (xs : list A) (body : S -> A -> run S) :
  (forall s x, body s x <> OutOfFuel) ->
  forall s, for_in xs body s <> OutOfFuel.
Proof.
  intros Hbody. induction xs as [|x xs IH]; intros s; simpl;
    [discriminate | now apply bind_finishes].
Qed.

Ltac finishes :=
  repeat first
    [ apply index_finishes | apply str_index_finishes
    | apply lookup_finishes | discriminate
    | apply bind_finishes; [|intros ?]
    | match goal with
      | |- (if ?c then _ else _) <> OutOfFuel => destruct c
      | |- (let (_, _) := ?p in _) <> OutOfFuel => destruct p
      end ].

Lemma space_check_finishes (b : list (list string)) (moves : list string)
      (color : string) (c r : Z) :
  space_check b moves color c r <> OutOfFuel.
Proof. unfold space_check, readable_position. finishes. Qed.

Lemma walk_body_budget (b : list (list string)) (color : string) (dc dr : Z)
      (v : walk_vars) (p : pass) :
  walk_body b color dc dr v = Return p ->
  w_max_distance (vars_of p) = w_max_distance v - 1.
Proof.
  unfold walk_body.
  destruct (_ || _).
  - intros H. inversion H. simpl. lia.
  - destruct (space_check _ _ _ _ _) as [[ms st]| |]; simpl;
      intros H; inversion H. simpl. lia.
Qed.

Lemma walk_loop_finishes (b : list (list string)) (color : string)
      (dc dr : Z) :
  forall (fuel : nat) (v : walk_vars),
    (Z.to_nat (w_max_distance v) <= fuel)%nat ->
    walk_loop b fuel color dc dr v <> OutOfFuel.
Proof.
  induction fuel as [|fuel IH]; intros v Hfuel; simpl;
    destruct (walk_test v) eqn:Ht; try discriminate.
  - apply walk_test_true in Ht. lia.
  - destruct (walk_body b color dc dr v) as [p| |] eqn:Hp; simpl.
    + apply walk_body_budget in Hp.
      destruct p as [v'|v']; [|discriminate].
      apply IH. simpl in Hp. apply walk_test_true in Ht. lia.
    + discriminate.
    + exfalso. revert Hp. unfold walk_body.
      destruct (_ || _); [discriminate|].
      apply bind_finishes; [apply space_check_finishes|].
      intros [ms st]. discriminate.
Qed.

Lemma walk_loop_fuel (b : list (list string)) (color : string) (dc dr : Z) :
  forall (fuel : nat) (v : walk_vars),
    (Z.to_nat (w_max_distance v) <= fuel)%nat ->
    walk_loop b fuel color dc dr v
    = walk_loop b (Z.to_nat (w_max_distance v)) color dc dr v.
Proof.
  induction fuel as [|fuel IH]; intros v Hfuel.
  - now replace (Z.to_nat (w_max_distance v)) with 0%nat by lia.
  - destruct (walk_test v) eqn:Ht.
    + apply walk_test_true in Ht as Ht'. destruct Ht' as [_ Hmd].
      replace (Z.to_nat (w_max_distance v))
        with (S (Z.to_nat (w_max_distance v - 1))) in * by lia.
      simpl. rewrite Ht.
      destruct (walk_body b color dc dr v) as [p| |] eqn:Hp; simpl;
        try reflexivity.
      apply walk_body_budget in Hp.
      destruct p as [v'|v']; [|reflexivity]. simpl in Hp.
      rewrite <- Hp. apply IH. lia.
    + destruct (Z.to_nat (w_max_distance v)); simpl; now rewrite Ht.
Qed.

Lemma walk_finishes (b : list (list string)) (piece : Piece)
      (steps : Z * Z) (max_distance : Z) :
  walk b piece steps max_distance <> OutOfFuel.
Proof.
  unfold walk. apply bind_finishes; [|discriminate].
  apply walk_loop_finishes. simpl. lia.
Qed.

Lemma find_moves_finishes (b : list (list string)) (piece : Piece) :
  find_moves b piece <> OutOfFuel.
Proof.
  unfold find_moves.
  destruct (str_in_list _ _).
  - apply bind_finishes; [apply lookup_finishes|]. intros [paths d].
    apply for_in_finishes. intros s path.
    apply bind_finishes; [apply lookup_finishes|]. intros step.
    apply bind_finishes; [apply walk_finishes | discriminate].
  - destruct (String.eqb _ _).
    + unfold pawn_moves.
      destruct (String.eqb _ _);
        (apply bind_finishes; [apply walk_finishes|]; intros w;
         apply bind_finishes; [|discriminate];
         apply for_in_finishes; intros s path;
         apply bind_finishes; [apply walk_finishes | discriminate]).
    + unfold knight_moves. apply for_in_finishes. intros s path.
      apply bind_finishes; [apply walk_finishes | discriminate].
Qed.

Lemma find_pieces_finishes (b : list (list string)) (color : string) :
  find_pieces b color <> OutOfFuel.
Proof.
  unfold find_pieces. apply for_in_finishes. intros s r.
  apply bind_finishes; [apply index_finishes|]. intros cells.
  apply for_in_finishes. intros s' c.
  apply bind_finishes; [apply index_finishes|]. intros t.
  apply bind_finishes; [apply str_index_finishes|]. intros p0.
  destruct (String.eqb p0 color); [|discriminate].
  apply bind_finishes; [apply str_index_finishes|]. intros p1.
  apply bind_finishes; [|discriminate].
  unfold new_Piece.
  apply bind_finishes; [apply lookup_finishes|]. intros cn.
  apply bind_finishes; [apply lookup_finishes|]. intros n.
  apply bind_finishes; [apply find_moves_finishes | discriminate].
Qed.

(** ** The pawn rule, move by move *)

Lemma ray_one (b : list (list string)) (mover : Color) (dc dr c r : Z)
      (m : Move) :
  In m (ray b mover dc dr 1 c r) <->
  (square_at b (c + dc) (r + dr) = Some Empty
   /\ m = mkMove (c + dc) (r + dr) None false)
  \/ (exists k, square_at b (c + dc) (r + dr)
                = Some (Occupied (opponent mover) k)
                /\ m = mkMove (c + dc) (r + dr) (Some k) false).
Proof.
  simpl. destruct (square_at b (c + dc) (r + dr)) as [[|oc k]|].
  - simpl. split.
    + intros [<-|[]]. auto.
    + intros [[_ ->]|[k [H _]]]; [auto | discriminate].
  - destruct (color_eqb oc mover) eqn:E; simpl; split.
    + intros [].
    + intros [[H _]|[k' [H _]]]; [discriminate|].
      inversion H; subst. destruct mover; discriminate.
    + intros [<-|[]]. right. exists k. split; [|reflexivity].
      destruct oc, mover; simpl in E; try discriminate; reflexivity.
    + intros [[H _]|[k' [H ->]]]; [discriminate|].
      inversion H. auto.
  - simpl. split; [intros [] | intros [[H _]|[k [H _]]]; discriminate].
Qed.

Lemma ray_two (b : list (list string)) (mover : Color) (dc dr c r : Z)
      (m : Move) :
  In m (ray b mover dc dr 2 c r) <->
  In m (ray b mover dc dr 1 c r)
  \/ (square_at b (c + dc) (r + dr) = Some Empty
      /\ In m (ray b mover dc dr 1 (c + dc) (r + dr))).
Proof.
  change (ray b mover dc dr 2 c r)
    with (match square_at b (c + dc) (r + dr) with
          | None => []
          | Some Empty =>
              mkMove (c + dc) (r + dr) None false
              :: ray b mover dc dr 1 (c + dc) (r + dr)
          | Some (Occupied oc k) =>
              if color_eqb oc mover then []
              else [mkMove (c + dc) (r + dr) (Some k) false]
          end).
  change (ray b mover dc dr 1 c r)
    with (match square_at b (c + dc) (r + dr) with
          | None => []
          | Some Empty => [mkMove (c + dc) (r + dr) None false]
          | Some (Occupied oc k) =>
              if color_eqb oc mover then []
              else [mkMove (c + dc) (r + dr) (Some k) false]
          end).
  destruct (square_at b (c + dc) (r + dr)) as [[|oc k]|].
  - simpl In at 1 2. intuition.
  - intuition discriminate.
  - intuition discriminate.
Qed.

Lemma forward_cases (mover : Color) :
  forward mover = 1 \/ forward mover = -1.
Proof. destruct mover; simpl; auto. Qed.

Lemma in_forward_walk (b : list (list string)) (mover : Color) (c r : Z)
      (m : Move) :
  in_board c r = true ->
  In m (filter (fun m => negb (is_capture m))
               (walker b mover 0 (forward mover)
                       (if r =? start_row mover then 2%nat else 1%nat) c r))
  <-> (square_at b c (r + forward mover) = Some Empty
       /\ m = mkMove c (r + forward mover) None false)
      \/ (r = start_row mover
          /\ square_at b c (r + forward mover) = Some Empty
          /\ square_at b c (r + 2 * forward mover) = Some Empty
          /\ m = mkMove c (r + 2 * forward mover) None false).
Proof.
  intros Hin. unfold walker. rewrite Hin, filter_In.
  replace (r + 2 * forward mover) with (r + forward mover + forward mover)
    by lia.
  destruct (Z.eqb_spec r (start_row mover)) as [Hr|Hr].
  - rewrite ray_two, !ray_one, !Z.add_0_r. split.
    + intros [[[[H ->]|[k [H ->]]]|[H1 [[H ->]|[k [H ->]]]]] Hc];
        simpl in Hc; try discriminate; auto 6.
    + intros [[H ->]|[_ [H1 [H2 ->]]]]; simpl; auto 6.
  - rewrite ray_one, !Z.add_0_r. split.
    + intros [[[H ->]|[k [H ->]]] Hc]; simpl in Hc; try discriminate; auto.
    + intros [[H ->]|[Hr' _]]; [simpl; auto | contradiction].
Qed.

Lemma in_diagonal_walk (b : list (list string)) (mover : Color)
      (d c r : Z) (m : Move) :
  in_board c r = true ->
  In m (filter is_capture (walker b mover d (forward mover) 1 c r))
  <-> exists k, square_at b (c + d) (r + forward mover)
                = Some (Occupied (opponent mover) k)
                /\ m = mkMove (c + d) (r + forward mover) (Some k) false.
Proof.
  intros Hin. unfold walker. rewrite Hin, filter_In, ray_one. split.
  - intros [[[H ->]|[k [H ->]]] Hc]; simpl in Hc; [discriminate | eauto].
  - intros [k [H ->]]. simpl. eauto.
Qed.

(** [pawn_list] holds the pawn rule's moves, each with its flag. *)
Lemma pawn_list_steps (b : list (list string)) (mover : Color) (c r : Z)
      (m : Move) :
  in_board c r = true ->
  In m (pawn_list b mover c r)
  <-> exists m0, pawn_step b mover c r m0 /\ m = flag_promotion mover m0.
Proof.
  intros Hin. unfold pawn_list.
  rewrite in_map_iff. split.
  - intros [m0 [<- H]]. exists m0. split; [|reflexivity].
    rewrite !in_app_iff, in_forward_walk, !in_diagonal_walk in H
      by assumption.
    destruct H as [[[H ->]|[Hr [H1 [H2 ->]]]]|[[k [H ->]]|[k [H ->]]]].
    + now apply step_one.
    + now apply step_two.
    + apply step_take; auto.
    + apply (step_take b mover c r (-1) k); auto.
  - intros [m0 [H ->]]. exists m0. split; [reflexivity|].
    rewrite !in_app_iff, in_forward_walk, !in_diagonal_walk by assumption.
    destruct H as [H|Hr H1 H2|d k [->| ->] H]; eauto 8.
Qed.

Lemma flag_promotion_target (mover : Color) (m : Move) :
  target_column (flag_promotion mover m) = target_column m
  /\ target_row (flag_promotion mover m) = target_row m
  /\ capture (flag_promotion mover m) = capture m.
Proof.
  unfold flag_promotion.
  destruct (target_row m =? promotion_row mover); simpl; auto.
Qed.

(** ** The collector *)

Lemma StronglySorted_app {A : Type} (R : A -> A -> Prop) (l1 l2 : list A) :
  StronglySorted R l1 -> StronglySorted R l2 ->
  (forall a b, In a l1 -> In b l2 -> R a b) ->
  StronglySorted R (l1 ++ l2).
Proof.
  induction l1 as [|x l1 IH]; intros H1 H2 H12; simpl; [assumption|].
  apply StronglySorted_inv in H1. destruct H1 as [H1 Hx].
  constructor.
  - apply IH; [assumption | assumption | intros; apply H12; simpl; auto].
  - apply Forall_app. split; [assumption|].
    apply Forall_forall. intros y Hy. apply H12; simpl; auto.
Qed.

Lemma StronglySorted_flat_map {A B : Type} (R : B -> B -> Prop)
      (Q : A -> A -> Prop) (g : A -> list B) (xs : list A) :
  StronglySorted Q xs ->
  (forall x, In x xs -> StronglySorted R (g x)) ->
  (forall x y a b, Q x y -> In a (g x) -> In b (g y) -> R a b) ->
  StronglySorted R (flat_map g xs).
Proof.
  intros Hxs Hg Hcross.
  induction Hxs as [|x xs Hxs IH Hx]; simpl; [constructor|].
  apply StronglySorted_app.
  - apply Hg. now left.
  - apply IH. intros y Hy. apply Hg. now right.
  - intros a c Ha Hc. apply in_flat_map in Hc. destruct Hc as [y [Hy Hc]].
    rewrite Forall_forall in Hx. eapply Hcross; eauto.
Qed.

Lemma range_sorted : StronglySorted Z.lt (range 8).
Proof. unfold range; simpl. repeat constructor; lia. Qed.

Lemma scan_rows_sorted (mover : Color) :
  StronglySorted (row_before mover) (scan_rows mover).
Proof.
  destruct mover; unfold scan_rows, row_before, range; simpl;
    repeat constructor; lia.
Qed.

Lemma scan_rows_range (mover : Color) (r : Z) :
  In r (scan_rows mover) <-> 0 <= r <= 7.
Proof.
  destruct mover; unfold scan_rows; rewrite <- ?in_rev;
    (split; [apply range_in | apply in_range]).
Qed.

Lemma piece_at_In (b : list (list string)) (mover : Color) (c r : Z)
      (p : Piece) :
  In p (piece_at b mover c r) <->
  exists k, square_at b c r = Some (Occupied mover k)
            /\ p = mkPiece (color_name mover) (kind_name k) c r
                           (moves_of b (mkPiece (color_name mover)
                                                (kind_name k) c r [])).
Proof.
  unfold piece_at.
  destruct (square_at b c r) as [[|oc k]|].
  - split; [intros [] | intros [k [H _]]; discriminate].
  - destruct (color_eqb oc mover) eqn:E; simpl.
    + assert (oc = mover) by (destruct oc, mover; simpl in E; congruence).
      subst oc. split.
      * intros [<-|[]]. eauto.
      * intros [k' [H ->]]. inversion H. auto.
    + split; [intros []|]. intros [k' [H _]]. inversion H. subst.
      destruct mover; discriminate.
  - split; [intros [] | intros [k [H _]]; discriminate].
Qed.

Lemma token_chars (oc : Color) (k : Kind) :
  str_index (token (Occupied oc k)) 0 = Return (color_code oc)
  /\ str_index (token (Occupied oc k)) 1 = Return (kind_code k).
Proof. destruct oc, k; split; reflexivity. Qed.

Lemma code_lookups (mover : Color) (k : Kind) :
  lookup piece_colors (color_code mover) = Return (color_name mover)
  /\ lookup piece_names (kind_code k) = Return (kind_name k).
Proof. destruct mover, k; split; reflexivity. Qed.

Lemma color_code_eqb (oc mover : Color) :
  String.eqb (color_code oc) (color_code mover) = color_eqb oc mover.
Proof. destruct oc, mover; reflexivity. Qed.

(** [find_pieces] gathers the pieces square by square in scan order. *)
Lemma find_pieces_list (b : list (list string)) (mover : Color) :
  valid_board b = true ->
  find_pieces b (color_code mover)
  = Return (flat_map (fun r => flat_map (fun c => piece_at b mover c r)
                                        (range 8))
                     (scan_rows mover)).
Proof.
  intros Hb. unfold find_pieces.
  replace (if String.eqb (color_code mover) "b"
           then rev (range 8) else range 8)
    with (scan_rows mover) by (destruct mover; reflexivity).
  apply (for_in_collect (scan_rows mover) _
           (fun r => flat_map (fun c => piece_at b mover c r) (range 8))).
  intros s r Hr. apply scan_rows_range in Hr.
  assert (Hcells : exists cells, nth_error b (Z.to_nat r) = Some cells).
  { destruct (valid_board_square b 0 r Hb) as [sq Hsq];
      [apply in_board_iff; lia|].
    apply square_at_Some in Hsq. destruct Hsq as [_ [cells [H _]]]. eauto. }
  destruct Hcells as [cells Hcells].
  rewrite (index_nth_error b r cells) by (lia || assumption).
  rewrite bind_Return.
  apply (for_in_collect (range 8) _ (fun c => piece_at b mover c r)).
  intros s' c Hc. apply range_in in Hc.
  destruct (valid_board_square b c r Hb) as [sq Hsq];
    [apply in_board_iff; lia|].
  pose proof (square_at_Some _ _ _ _ Hsq) as [_ [cells' [Hr' Hc']]].
  assert (cells' = cells) by congruence. subst cells'.
  rewrite (index_nth_error cells c (token sq)) by (lia || assumption).
  rewrite bind_Return. unfold piece_at. rewrite Hsq.
  destruct sq as [|oc k].
  - change (str_index (token Empty) 0) with (Return "x"%string).
    rewrite bind_Return.
    replace (String.eqb "x" (color_code mover)) with false
      by (destruct mover; reflexivity).
    now rewrite app_nil_r.
  - destruct (token_chars oc k) as [-> H1]. rewrite bind_Return.
    rewrite color_code_eqb.
    destruct (color_eqb oc mover); [|now rewrite app_nil_r].
    rewrite H1, bind_Return. unfold new_Piece.
    destruct (code_lookups mover k) as [-> ->]. rewrite !bind_Return.
    destruct (find_moves_reports
                b (mkPiece (color_name mover) (kind_name k) c r []) mover
                Hb eq_refl) as [ms [Hms _]].
    unfold moves_of. rewrite Hms, !bind_Return. reflexivity.
Qed.

(** ** Indexing outside the board *)

Lemma index_beyond {A : Type} (l : list A) (i : Z) :
  i < - Z.of_nat (List.length l) \/ Z.of_nat (List.length l) <= i ->
  index l i = Raise IndexError.
Proof.
  intros H. unfold index.
  destruct (Z.ltb_spec i 0) as [Hi|Hi].
  - replace (0 <=? i + Z.of_nat (List.length l)) with false
      by (symmetry; apply Z.leb_gt; lia).
    reflexivity.
  - replace (i <? Z.of_nat (List.length l)) with false
      by (symmetry; apply Z.ltb_ge; lia).
    now rewrite andb_false_r.
Qed.

Lemma index_negative {A : Type} (l : list A) (i : Z) :
  - Z.of_nat (List.length l) <= i < 0 ->
  index l i = index l (i + Z.of_nat (List.length l)).
Proof.
  intros H. unfold index.
  replace (i <? 0) with true by (symmetry; apply Z.ltb_lt; lia).
  replace (i + Z.of_nat (List.length l) <? 0) with false
    by (symmetry; apply Z.ltb_ge; lia).
  reflexivity.
Qed.

Lemma index_Return_In {A : Type} (l : list A) (i : Z) (a : A) :
  index l i = Return a -> In a l.
Proof.
  unfold index. destruct (_ && _); [|discriminate].
  destruct (nth_error l _) eqn:H; [|discriminate].
  intros E. inversion E. subst. eapply nth_error_In; eauto.
Qed.

Lemma valid_board_lengths (b : list (list string)) :
  valid_board b = true ->
  List.length b = 8%nat
  /\ forall cells, In cells b -> List.length cells = 8%nat.
Proof.
  unfold valid_board. intros H. apply andb_true_iff in H.
  destruct H as [Hl Hrows]. apply Nat.eqb_eq in Hl. split; [assumption|].
  intros cells Hc. rewrite forallb_forall in Hrows.
  apply Hrows in Hc. apply andb_true_iff in Hc.
  now apply Nat.eqb_eq.
Qed.

(** ** Where the walks of [find_moves] go *)

Lemma ray_reached (b : list (list string)) (mover : Color) (dc dr : Z)
      (n : nat) :
  forall (c r : Z) (m : Move),
    In m (ray b mover dc dr n c r) <->
    exists j, 1 <= j <= Z.of_nat n /\ reached b mover dc dr c r j m.
Proof.
  induction n as [|n IH]; intros c r m.
  - simpl. split; [intros [] | intros [j [Hj _]]; lia].
  - change (ray b mover dc dr (S n) c r)
      with (match square_at b (c + dc) (r + dr) with
            | None => []
            | Some Empty =>
                mkMove (c + dc) (r + dr) None false
                :: ray b mover dc dr n (c + dc) (r + dr)
            | Some (Occupied oc k) =>
                if color_eqb oc mover then []
                else [mkMove (c + dc) (r + dr) (Some k) false]
            end).
    assert (Hfirst : forall j m',
               reached b mover dc dr c r j m' -> 1 <= j ->
               (j = 1 /\ lands_on b mover m'
                /\ target_column m' = c + dc /\ target_row m' = r + dr)
               \/ (1 < j /\ square_at b (c + dc) (r + dr) = Some Empty)).
    { intros j m' [Hc [Hr [_ [Hclear Hl]]]] Hj.
      destruct (Z.eq_dec j 1) as [->|Hne].
      - left. rewrite Hc, Hr. repeat split; [assumption | ring | ring].
      - right. split; [lia|].
        specialize (Hclear 1 ltac:(lia)).
        now rewrite !Z.mul_1_l in Hclear. }
    assert (Hshift : forall j m',
               reached b mover dc dr (c + dc) (r + dr) j m' ->
               square_at b (c + dc) (r + dr) = Some Empty ->
               reached b mover dc dr c r (j + 1) m').
    { intros j m' [Hc [Hr [Hp [Hclear Hl]]]] Hsq.
      unfold reached. rewrite Hc, Hr.
      split; [ring|]. split; [ring|]. split; [assumption|].
      split; [|assumption].
      intros i Hi. destruct (Z.eq_dec i 1) as [->|Hne].
      - now rewrite !Z.mul_1_l.
      - specialize (Hclear (i - 1) ltac:(lia)).
        replace (c + i * dc) with (c + dc + (i - 1) * dc) by ring.
        replace (r + i * dr) with (r + dr + (i - 1) * dr) by ring.
        assumption. }
    assert (Hunshift : forall j m',
               reached b mover dc dr c r j m' -> 1 < j ->
               reached b mover dc dr (c + dc) (r + dr) (j - 1) m').
    { intros j m' [Hc [Hr [Hp [Hclear Hl]]]] Hj.
      unfold reached. rewrite Hc, Hr.
      split; [ring|]. split; [ring|]. split; [assumption|].
      split; [|assumption].
      intros i Hi. specialize (Hclear (i + 1) ltac:(lia)).
      replace (c + dc + i * dc) with (c + (i + 1) * dc) by ring.
      replace (r + dr + i * dr) with (r + (i + 1) * dr) by ring.
      assumption. }
    destruct (square_at b (c + dc) (r + dr)) as [[|oc k]|] eqn:Hsq.
    + simpl In. rewrite IH. split.
      * intros [<-|[j [Hj Hm]]].
        -- exists 1. split; [lia|]. unfold reached, clear_path, lands_on.
           cbn [target_column target_row promotion capture].
           rewrite !Z.mul_1_l. repeat split; auto. intros i Hi. lia.
        -- exists (j + 1). split; [lia | auto].
      * intros [j [Hj Hm]].
        destruct (Hfirst j m Hm ltac:(lia)) as [[-> [Hl [Hc Hr]]]|[Hj1 _]].
        -- left. destruct Hm as [_ [_ [Hp _]]].
           unfold lands_on in Hl. rewrite Hc, Hr, Hsq in Hl.
           destruct m as [mc mr [k|] mp]; simpl in *;
             [discriminate | congruence].
        -- right. exists (j - 1). split; [lia | auto].
    + split.
      * intros Hin.
        assert (Hm : color_eqb oc mover = false
                     /\ m = mkMove (c + dc) (r + dr) (Some k) false).
        { destruct (color_eqb oc mover); [destruct Hin|].
          destruct Hin as [<-|[]]. auto. }
        destruct Hm as [Hoc ->]. exists 1. split; [lia|].
        unfold reached, clear_path, lands_on.
        cbn [target_column target_row promotion capture].
        rewrite !Z.mul_1_l.
        repeat split; auto; [intros i Hi; lia|].
        rewrite Hsq. destruct oc, mover; simpl in Hoc;
          try discriminate; reflexivity.
      * intros [j [Hj Hm]].
        destruct (Hfirst j m Hm ltac:(lia)) as [[-> [Hl [Hc Hr]]]|[_ Hx]];
          [|discriminate].
        destruct Hm as [_ [_ [Hp _]]].
        unfold lands_on in Hl. rewrite Hc, Hr, Hsq in Hl.
        destruct m as [mc mr [k'|] mp]; simpl in *; [|discriminate].
        inversion Hl; subst.
        replace (color_eqb (opponent mover) mover) with false
          by (destruct mover; reflexivity).
        left. reflexivity.
    + split; [intros []|].
      intros [j [Hj Hm]].
      destruct (Hfirst j m Hm ltac:(lia)) as [[-> [Hl [Hc Hr]]]|[_ Hx]];
        [|discriminate].
      unfold lands_on in Hl. rewrite Hc, Hr, Hsq in Hl. discriminate.
Qed.

Lemma map_flat_map_swap {A B C : Type} (f : B -> C) (g : A -> list B)
      (xs : list A) :
  flat_map (fun x => map f (g x)) xs = map f (flat_map g xs).
Proof.
  induction xs as [|x xs IH]; simpl; [reflexivity|].
  now rewrite map_app, IH.
Qed.

(** The moves of a rook, bishop, queen or king: the walks along the
    directions of its table entry, in the table's order. *)
Lemma slider_moves (b : list (list string)) (piece : Piece) (mover : Color) :
  valid_board b = true ->
  color piece = color_name mover ->
  str_in_list (name piece) (keys move_options) = true ->
  find_moves b piece
  = Return (map render
                (flat_map (fun d => walker b mover (fst d) (snd d)
                                           (Z.to_nat (reach_of (name piece)))
                                           (column piece) (row piece))
                          (directions_of (name piece)))).
Proof.
  intros Hb Hc Hk. unfold find_moves. rewrite Hk.
  apply lookup_in_keys in Hk. destruct Hk as [[paths d] [Hl Hin]].
  unfold directions_of, reach_of. rewrite Hl, bind_Return.
  set (W := fun d0 : Z * Z => walker b mover (fst d0) (snd d0) (Z.to_nat d)
                                     (column piece) (row piece)).
  set (sel := fun path : string => match lookup move_changes path with
                                   | Return d0 => [d0]
                                   | _ => []
                                   end).
  rewrite (for_in_collect paths _ (fun path => map render (flat_map W (sel path)))).
  - simpl. f_equal. rewrite map_flat_map_swap. f_equal.
    clear. induction paths as [|p paths IH]; simpl; [reflexivity|].
    now rewrite flat_map_app, IH.
  - intros s path Hp.
    destruct (path_known _ _ _ _ Hin Hp) as [[dc dr] Hstep].
    unfold sel. rewrite Hstep, bind_Return.
    rewrite (walk_moves b piece mover) by assumption.
    rewrite bind_Return. simpl. unfold W. simpl. now rewrite app_nil_r.
Qed.

Lemma knight_moves_list (b : list (list string)) (piece : Piece)
      (mover : Color) :
  valid_board b = true ->
  color piece = color_name mover ->
  knight_moves b piece
  = Return (map render
                (flat_map (fun d => walker b mover (fst d) (snd d) 1
                                           (column piece) (row piece))
                          knight_options)).
Proof.
  intros Hb Hc. unfold knight_moves.
  rewrite (for_in_collect
             knight_options _
             (fun d => map render (walker b mover (fst d) (snd d) 1
                                          (column piece) (row piece)))).
  - f_equal.
    apply (map_flat_map_swap
             render (fun d => walker b mover (fst d) (snd d) 1
                                     (column piece) (row piece))).
  - intros s [dc dr] _.
    rewrite (walk_moves b piece mover) by assumption.
    now rewrite bind_Return.
Qed.

Lemma walker_reached (b : list (list string)) (mover : Color) (dc dr : Z)
      (n : nat) (c r : Z) (m : Move) :
  In m (walker b mover dc dr n c r) ->
  exists j, 1 <= j <= Z.of_nat n /\ reached b mover dc dr c r j m.
Proof.
  unfold walker. destruct (in_board c r); [|intros []].
  apply ray_reached.
Qed.

(** Every move of [find_moves] comes from one of the walks of
    [walks_of], at some step of it, over a clear path. *)
Lemma find_moves_walked (b : list (list string)) (piece : Piece)
      (mover : Color) :
  valid_board b = true ->
  color piece = color_name mover ->
  exists L,
    find_moves b piece = Return (map render L)
    /\ forall m,
         In m L ->
         lands_on b mover m
         /\ exists dc dr md j,
             In ((dc, dr), md) (walks_of piece)
             /\ 1 <= j <= md
             /\ target_column m = column piece + j * dc
             /\ target_row m = row piece + j * dr
             /\ clear_path b dc dr (column piece) (row piece) j.
Proof.
  intros Hb Hc. unfold walks_of.
  destruct (str_in_list (name piece) (keys move_options)) eqn:Hk.
  - rewrite (slider_moves b piece mover Hb Hc Hk).
    eexists. split; [reflexivity|].
    intros m Hm. apply in_flat_map in Hm. destruct Hm as [[dc dr] [Hd Hm]].
    apply walker_reached in Hm.
    destruct Hm as [j [Hj [Hx [Hy [_ [Hclear Hl]]]]]].
    split; [assumption|].
    exists dc, dr, (reach_of (name piece)), j.
    split; [|repeat split; try assumption; lia].
    apply (in_map (fun d => (d, reach_of (name piece)))) in Hd. exact Hd.
  - unfold find_moves. rewrite Hk.
    destruct (String.eqb (name piece) "pawn").
    + rewrite (pawn_moves_list b piece mover Hb Hc).
      eexists. split; [reflexivity|].
      intros m Hm. split; [now apply pawn_list_lands in Hm|].
      unfold pawn_list in Hm. apply in_map_iff in Hm.
      destruct Hm as [m0 [<- Hm0]].
      destruct (flag_promotion_target mover m0) as [-> [-> _]].
      rewrite Hc.
      apply in_app_or in Hm0. destruct Hm0 as [H|H];
        [|apply in_app_or in H; destruct H as [H|H]];
        apply filter_In in H; destruct H as [H _];
        apply walker_reached in H;
        destruct H as [j [Hj [Hx [Hy [_ [Hclear _]]]]]].
      * exists 0, (forward mover),
               (if row piece =? start_row mover then 2 else 1), j.
        split; [destruct mover; simpl; auto|].
        repeat split; try assumption; try lia.
        destruct (row piece =? start_row mover); simpl in Hj; lia.
      * exists 1, (forward mover), 1, j.
        split; [destruct mover; simpl; auto|].
        repeat split; try assumption; simpl in Hj; lia.
      * exists (-1), (forward mover), 1, j.
        split; [destruct mover; simpl; auto|].
        repeat split; try assumption; simpl in Hj; lia.
    + rewrite (knight_moves_list b piece mover Hb Hc).
      eexists. split; [reflexivity|].
      intros m Hm. apply in_flat_map in Hm.
      destruct Hm as [[dc dr] [Hd Hm]].
      apply walker_reached in Hm.
      destruct Hm as [j [Hj [Hx [Hy [_ [Hclear Hl]]]]]].
      split; [assumption|].
      exists dc, dr, 1, j.
      split; [|repeat split; try assumption; simpl in Hj; lia].
      apply (in_map (fun d => (d, 1))) in Hd. exact Hd.
Qed.

(** ** The scenarios of the specification, run on the program *)

Example scenario_knight_g1 :
  find_moves starting_board (mkPiece "white" "knight" 6 7 [])
  = Return ["f3"; "h3"]%string.
Proof. reflexivity. Qed.

Example scenario_pawn_a2 :
  find_moves starting_board (mkPiece "white" "pawn" 0 6 [])
  = Return ["a3"; "a4"]%string.
Proof. reflexivity. Qed.

Example scenario_rook_ray :
  walk rook_board (mkPiece "white" "rook" 0 0 []) (0, 1) 7
  = Return ["a7"; "a6"; "a5"; "a4"; "a3 (Capture Pawn)"]%string.
Proof. reflexivity. Qed.

Example scenario_promotion :
  find_pieces promotion_board "b"
  = Return [mkPiece "black" "pawn" 1 6
                    ["Promote on b1"; "Promote on a1 (Capture Rook)"]%string].
Proof. reflexivity. Qed.

(** ** The claims of the specification *)

(** C1 (the knight rule tries each of the eight L-shaped offsets, all
    distinct, exactly once) fails on the code: the offset table of
    [knight_moves] holds (-2,-1) twice and (-2,1) not at all, so the walk
    to (-2,1) is never made.  A lone white knight on d4 is given b5 twice
    and never b3, although b3 is on the board and empty. *)
Theorem knight_offset_dropped :
  List.length (filter (offset_eqb (-2, -1)) knight_options) = 2%nat
  /\ existsb (offset_eqb (-2, 1)) knight_options = false
  /\ existsb (offset_eqb (-2, 1)) canonical_offsets = true
  /\ square_at (place "wn" 3 4 empty_board) (3 + -2) (4 + 1) = Some Empty
  /\ find_moves (place "wn" 3 4 empty_board)
                (mkPiece "white" "knight" 3 4 [])
     = Return ["c6"; "e6"; "f5"; "f3"; "e2"; "c2"; "b5"; "b5"]%string
  /\ render (mkMove (3 + -2) (4 + 1) None false) = "b3"%string.
Proof. repeat split. Qed.

(** C2 (a knight alone on the board is given 2, 3, 4, 6 or 8 moves, as
    the knight-mobility table has it for its square) fails on the code,
    through the same offset table: a lone white knight on c1 is given
    five moves (a2 twice), where the table gives four and no square
    gives five. *)
Theorem knight_count_off_table :
  valid_board (place "wn" 2 7 empty_board) = true
  /\ find_moves (place "wn" 2 7 empty_board)
                (mkPiece "white" "knight" 2 7 [])
     = Return ["b3"; "d3"; "e2"; "a2"; "a2"]%string
  /\ knight_mobility 2 7 = 4%nat
  /\ ~ In 5%nat [2; 3; 4; 6; 8]%nat.
Proof.
  repeat split. simpl. intros H.
  repeat (destruct H as [H|H]; [discriminate|]). exact H.
Qed.

(** C3: for every piece standing on the board, direction vector and
    maxSteps, [walk] reports exactly the Ray Walker's moves: it visits the
    successive squares along the direction; an empty square gives a
    non-capturing move and the walk continues; a square held by the
    opposing color gives a capturing move that records the captured kind
    and ends the walk; a square held by the own color ends the walk with
    no move; leaving the board or using up maxSteps ends the walk. *)
Theorem walk_follows_ray (b : list (list string)) (piece : Piece)
        (mover : Color) (dc dr max_distance : Z) :
  valid_board b = true ->
  color piece = color_name mover ->
  in_board (column piece) (row piece) = true ->
  exists ms,
    walk b piece (dc, dr) max_distance = Return ms
    /\ ms = map render (ray b mover dc dr (Z.to_nat max_distance)
                             (column piece) (row piece))
    /\ map parse_move ms
       = map Some (ray b mover dc dr (Z.to_nat max_distance)
                       (column piece) (row piece)).
Proof.
  intros Hb Hc Hin.
  rewrite (walk_moves b piece mover) by assumption.
  unfold walker. rewrite Hin.
  eexists. split; [reflexivity|]. split; [reflexivity|].
  rewrite map_map. apply map_ext_in. intros m Hm.
  apply parse_render. apply ray_lands in Hm. destruct Hm as [Hm _].
  now apply lands_on_in_board in Hm.
Qed.

Lemma walk_follows_ray_witness :
  exists ms,
    walk rook_board (mkPiece "white" "rook" 0 0 []) (0, 1) 7 = Return ms
    /\ ms = map render (ray rook_board White 0 1 (Z.to_nat 7) 0 0)
    /\ map parse_move ms
       = map Some (ray rook_board White 0 1 (Z.to_nat 7) 0 0).
Proof.
  apply (walk_follows_ray rook_board (mkPiece "white" "rook" 0 0 [])
                          White 0 1 7); reflexivity.
Defined.

(** C4: for every pawn standing on the board, forward moves are emitted
    only onto empty squares (never onto an occupied square, own or
    enemy); the two-square advance is emitted only from the starting row
    (6 for White, 1 for Black) with the intermediate and the destination
    square both empty; and a one-square forward-diagonal move is emitted,
    in each of the two diagonal directions, if and only if its target
    holds an opposing piece.  Every emitted move is of one of these
    forms. *)
Theorem pawn_rule (b : list (list string)) (piece : Piece) (mover : Color) :
  valid_board b = true ->
  color piece = color_name mover ->
  in_board (column piece) (row piece) = true ->
  exists ms,
    pawn_moves b piece = Return ms
    /\ (forall s, In s ms -> exists m, parse_move s = Some m)
    /\ (forall m,
          emits ms m ->
          (target_column m = column piece
           /\ (target_row m = row piece + forward mover
               \/ target_row m = row piece + 2 * forward mover))
          \/ ((target_column m = column piece + 1
               \/ target_column m = column piece - 1)
              /\ target_row m = row piece + forward mover
              /\ capture m <> None))
    /\ (forall m,
          emits ms m -> target_column m = column piece ->
          capture m = None
          /\ square_at b (target_column m) (target_row m) = Some Empty)
    /\ (forall m,
          emits ms m -> target_column m = column piece ->
          target_row m = row piece + 2 * forward mover ->
          row piece = start_row mover
          /\ square_at b (column piece) (row piece + forward mover)
             = Some Empty
          /\ square_at b (column piece) (row piece + 2 * forward mover)
             = Some Empty)
    /\ (forall d,
          d = 1 \/ d = -1 ->
          (exists m, emits ms m
                     /\ target_column m = column piece + d
                     /\ target_row m = row piece + forward mover)
          <-> (exists k, square_at b (column piece + d)
                                   (row piece + forward mover)
                         = Some (Occupied (opponent mover) k))).
Proof.
  intros Hb Hc Hin. rewrite (pawn_moves_list b piece mover Hb Hc).
  set (c := column piece) in *. set (r := row piece) in *.
  eexists. split; [reflexivity|].
  assert (Hboard : forall n, In n (pawn_list b mover c r) ->
                             in_board (target_column n) (target_row n) = true).
  { intros n Hn. apply pawn_list_lands in Hn.
    now apply lands_on_in_board in Hn. }
  assert (Hemit : forall m,
             emits (map render (pawn_list b mover c r)) m <->
             exists m0, pawn_step b mover c r m0
                        /\ m = flag_promotion mover m0).
  { intros m. rewrite emits_render by assumption.
    now apply pawn_list_steps. }
  pose proof (forward_cases mover) as Hf.
  assert (Hpre : forall m,
             emits (map render (pawn_list b mover c r)) m ->
             exists m0, pawn_step b mover c r m0
                        /\ target_column m = target_column m0
                        /\ target_row m = target_row m0
                        /\ capture m = capture m0).
  { intros m Hm. apply Hemit in Hm. destruct Hm as [m0 [Hstep ->]].
    exists m0. split; [assumption | apply flag_promotion_target]. }
  split.
  { intros s Hs. apply in_map_iff in Hs. destruct Hs as [m [<- Hm]].
    exists m. apply parse_render. auto. }
  split.
  { intros m Hm. destruct (Hpre m Hm) as [m0 [Hstep [-> [-> ->]]]].
    destruct Hstep as [H|Hr H1 H2|d k Hd H];
      cbn [target_column target_row capture].
    - left. auto.
    - left. auto.
    - right. split; [|split; [reflexivity | discriminate]].
      destruct Hd; subst; auto. }
  split.
  { intros m Hm Hcol. destruct (Hpre m Hm) as [m0 [Hstep [Ec [Er Ek]]]].
    rewrite Ec in *. rewrite Er, Ek.
    destruct Hstep as [H|Hr H1 H2|d k Hd H]; cbn [target_column target_row capture] in *; auto;
      exfalso; lia. }
  split.
  { intros m Hm Hcol Hrow.
    destruct (Hpre m Hm) as [m0 [Hstep [Ec [Er Ek]]]].
    rewrite Ec in Hcol. rewrite Er in Hrow.
    destruct Hstep as [H|Hr H1 H2|d k Hd H]; cbn [target_column target_row capture] in *; auto;
      exfalso; lia. }
  intros d Hd. split.
  - intros [m [Hm [Hcol Hrow]]].
    destruct (Hpre m Hm) as [m0 [Hstep [Ec [Er Ek]]]].
    rewrite Ec in Hcol. rewrite Er in Hrow.
    destruct Hstep as [H1|Hr H1 H2|d' k Hd' H1]; cbn [target_column target_row capture] in *; try lia.
    assert (d' = d) by lia. subst d'. eauto.
  - intros [k Hk].
    exists (flag_promotion mover
              (mkMove (c + d) (r + forward mover) (Some k) false)).
    split.
    + apply Hemit. eexists. split; [|reflexivity]. now apply step_take.
    + destruct (flag_promotion_target
                  mover (mkMove (c + d) (r + forward mover) (Some k) false))
        as [-> [-> _]]. simpl. auto.
Qed.

Lemma pawn_rule_witness :
  exists ms,
    pawn_moves promotion_board (mkPiece "black" "pawn" 1 6 []) = Return ms
    /\ forall m,
         emits ms m -> target_column m = 1 ->
         capture m = None
         /\ square_at promotion_board (target_column m) (target_row m)
            = Some Empty.
Proof.
  destruct (pawn_rule promotion_board (mkPiece "black" "pawn" 1 6 []) Black)
    as [ms [Hms [_ [_ [H _]]]]]; try reflexivity.
  exists ms. split; [exact Hms | exact H].
Defined.

(** C5: for every pawn on any board, an emitted pawn move is flagged as a
    promotion if and only if its destination row is 0 for a White pawn or
    7 for a Black pawn. *)
Theorem pawn_promotion_flag (b : list (list string)) (piece : Piece)
        (mover : Color) :
  valid_board b = true ->
  color piece = color_name mover ->
  exists ms,
    pawn_moves b piece = Return ms
    /\ forall s, In s ms ->
                 exists m, parse_move s = Some m
                           /\ (promotion m = true
                               <-> target_row m = promotion_row mover).
Proof.
  intros Hb Hc. rewrite (pawn_moves_list b piece mover Hb Hc).
  eexists. split; [reflexivity|].
  intros s Hs. apply in_map_iff in Hs. destruct Hs as [m [<- Hm]].
  exists m. split.
  - apply parse_render. apply pawn_list_lands in Hm.
    now apply lands_on_in_board in Hm.
  - unfold pawn_list in Hm. apply in_map_iff in Hm.
    destruct Hm as [m0 [<- Hm0]].
    assert (Hp : promotion m0 = false).
    { apply in_app_or in Hm0. destruct Hm0 as [H|H];
        [|apply in_app_or in H; destruct H as [H|H]];
        apply filter_In in H; destruct H as [H _];
        now apply walker_lands in H. }
    unfold flag_promotion.
    destruct (target_row m0 =? promotion_row mover) eqn:Hrow; simpl.
    + apply Z.eqb_eq in Hrow. tauto.
    + apply Z.eqb_neq in Hrow. rewrite Hp. split; [discriminate | tauto].
Qed.

Lemma pawn_promotion_flag_witness :
  exists ms,
    pawn_moves promotion_board (mkPiece "black" "pawn" 1 6 []) = Return ms
    /\ forall s, In s ms ->
                 exists m, parse_move s = Some m
                           /\ (promotion m = true
                               <-> target_row m = promotion_row Black).
Proof.
  apply (pawn_promotion_flag promotion_board (mkPiece "black" "pawn" 1 6 [])
                             Black); reflexivity.
Defined.

(** C6 (dereferencing a square with column or row outside [0,7] fails
    with a bounds error and is never mapped to a valid square), as the
    specification states it, fails: column -1 lies outside [0,7], yet
    dereferencing (-1, 0) on the starting board raises nothing and reads
    the rook of column 7. *)
Lemma dereference_wraps_around :
  valid_board starting_board = true
  /\ in_board (-1) 0 = false
  /\ (cells <- index starting_board 0 ;; index cells (-1)) = Return "br"%string
  /\ space_check starting_board [] "white" (-1) 0
     = Return (["h8 (Capture Rook)"%string], true).
Proof. repeat split. Qed.

(** C6, amended: on a validated board, dereferencing a coordinate pair
    with column or row outside [-8,7] fails with IndexError; a negative
    column or row down to -8 does not fail but reads the square eight
    further along (Python's indexing from the end). *)
Theorem dereference_out_of_range (b : list (list string))
        (moves : list string) (color : string) (c r : Z) :
  valid_board b = true ->
  (c < -8 \/ 7 < c \/ r < -8 \/ 7 < r ->
   (cells <- index b r ;; index cells c) = Raise IndexError
   /\ space_check b moves color c r = Raise IndexError)
  /\ (-8 <= c <= 7 -> -8 <= r <= 7 ->
      (cells <- index b r ;; index cells c)
      = (cells <- index b (r mod 8) ;; index cells (c mod 8))
      /\ exists sq, (cells <- index b r ;; index cells c)
                    = Return (token sq)
                    /\ square_at b (c mod 8) (r mod 8) = Some sq).
Proof.
  intros Hb. destruct (valid_board_lengths b Hb) as [Hlen Hrows].
  assert (Hwrap : forall (A : Type) (l : list A) i,
             List.length l = 8%nat -> -8 <= i <= 7 ->
             index l i = index l (i mod 8)).
  { intros A l i Hl Hi. destruct (Z_lt_le_dec i 0).
    - rewrite index_negative by lia. f_equal.
      rewrite Hl. change (Z.of_nat 8) with 8.
      rewrite <- (Z_mod_plus_full i 1 8).
      rewrite Z.mod_small by lia. lia.
    - now rewrite Z.mod_small by lia. }
  split.
  - intros Hout.
    assert (Hraise : (cells <- index b r ;; index cells c) = Raise IndexError).
    { destruct (index b r) as [cells| |] eqn:Hr; simpl.
      - pose proof (Hrows _ (index_Return_In _ _ _ Hr)) as Hcells.
        destruct (Z_lt_le_dec r (-8)) as [Hr1|Hr1];
          [rewrite index_beyond in Hr by lia; discriminate|].
        destruct (Z_lt_le_dec 7 r) as [Hr2|Hr2];
          [rewrite index_beyond in Hr by lia; discriminate|].
        apply index_beyond. lia.
      - destruct (Z_lt_le_dec r (-8)) as [Hr1|Hr1];
          [rewrite index_beyond in Hr by lia; congruence|].
        destruct (Z_lt_le_dec 7 r) as [Hr2|Hr2];
          [rewrite index_beyond in Hr by lia; congruence|].
        exfalso. rewrite (Hwrap _ b r Hlen) in Hr by lia.
        destruct (valid_board_square b 0 (r mod 8) Hb) as [sq Hsq].
        { apply in_board_iff. pose proof (Z.mod_pos_bound r 8). lia. }
        apply square_at_Some in Hsq. destruct Hsq as [_ [cs [Hcs _]]].
        rewrite (index_nth_error b (r mod 8) cs) in Hr;
          [discriminate | pose proof (Z.mod_pos_bound r 8); lia
           | assumption].
      - exfalso. revert Hr. apply index_finishes. }
    split; [assumption|].
    unfold space_check.
    destruct (index b r) as [cells| |]; cbn [bind] in *;
      [now rewrite Hraise | now inversion Hraise | discriminate].
  - intros Hc Hr.
    assert (Hin : in_board (c mod 8) (r mod 8) = true).
    { apply in_board_iff.
      pose proof (Z.mod_pos_bound c 8). pose proof (Z.mod_pos_bound r 8).
      lia. }
    destruct (valid_board_square b _ _ Hb Hin) as [sq Hsq].
    pose proof (board_lookup b _ _ sq Hsq) as Hlook.
    assert (Heq : (cells <- index b r ;; index cells c)
                  = (cells <- index b (r mod 8) ;; index cells (c mod 8))).
    { rewrite (Hwrap _ b r Hlen Hr).
      destruct (index b (r mod 8)) as [cells| |] eqn:Hcells; simpl;
        try reflexivity.
      apply Hwrap; [|assumption].
      apply Hrows. eapply index_Return_In; eauto. }
    split; [assumption|]. exists sq. split; [congruence | assumption].
Qed.

Lemma dereference_out_of_range_witness :
  (cells <- index starting_board 0 ;; index cells 8) = Raise IndexError
  /\ space_check starting_board [] "white" 8 0 = Raise IndexError.
Proof.
  apply (dereference_out_of_range starting_board [] "white" 8 0);
    [reflexivity | lia].
Defined.

(** C7: for every board, color and piece of that color, every move that
    move generation emits has its destination (column, row) within
    [0,7]x[0,7], and the board lookup performed for it is in range.
    First, pass by pass: a pass of the loop of [walk] whose next
    coordinate is off the board breaks out with the moves untouched,
    looking nothing up and raising nothing, and a pass that goes on has
    looked the board up at that next coordinate, which is on the board.
    Second, move by move: every emitted string reads as the move to the
    [j]-th square, [j] at least 1 and at most the travel distance, along
    one of the walks [find_moves] makes from the piece's square, over
    empty squares only; that square lies within [0,7]x[0,7], the lookup
    [board[row][column]] there succeeds and the move agrees with what it
    finds. *)
Theorem moves_stay_on_board (b : list (list string)) (piece : Piece)
        (mover : Color) :
  valid_board b = true ->
  color piece = color_name mover ->
  (forall (dc dr : Z) (v : walk_vars),
      (in_board (w_column v + dc) (w_row v + dr) = false ->
       walk_body b (color piece) dc dr v
       = Return (Break (mkVars (w_column v + dc) (w_row v + dr)
                               (w_max_distance v + -1)
                               (w_moves v) (w_stop v))))
      /\ (forall v',
             walk_body b (color piece) dc dr v = Return (Again v') ->
             0 <= w_column v' <= 7
             /\ 0 <= w_row v' <= 7
             /\ w_column v' = w_column v + dc
             /\ w_row v' = w_row v + dr
             /\ space_check b (w_moves v) (color piece)
                            (w_column v') (w_row v')
                = Return (w_moves v', w_stop v')))
  /\ exists ms,
      find_moves b piece = Return ms
      /\ forall s,
           In s ms ->
           exists m sq dc dr md j,
             parse_move s = Some m
             /\ 0 <= target_column m <= 7
             /\ 0 <= target_row m <= 7
             /\ square_at b (target_column m) (target_row m) = Some sq
             /\ (cells <- index b (target_row m) ;;
                 index cells (target_column m)) = Return (token sq)
             /\ In ((dc, dr), md) (walks_of piece)
             /\ 1 <= j <= md
             /\ target_column m = column piece + j * dc
             /\ target_row m = row piece + j * dr
             /\ clear_path b dc dr (column piece) (row piece) j
             /\ lands_on b mover m.
Proof.
  intros Hb Hc. split.
  - intros dc dr v. split.
    + intros Hoff. unfold walk_body.
      rewrite <- negb_andb, <- in_board_range8, Hoff. reflexivity.
    + intros v'. unfold walk_body.
      rewrite <- negb_andb, <- in_board_range8.
      destruct (in_board (w_column v + dc) (w_row v + dr)) eqn:Hin;
        [|discriminate].
      destruct (w_stop v); [discriminate|]. simpl negb. cbv iota.
      destruct (space_check b (w_moves v) (color piece)
                            (w_column v + dc) (w_row v + dr))
        as [[moves stop]| |] eqn:Hsc; simpl; try discriminate.
      intros H. inversion H; subst v'. simpl.
      apply in_board_iff in Hin. repeat split; try tauto.
  - destruct (find_moves_walked b piece mover Hb Hc) as [L [HL Hwalked]].
    eexists. split; [exact HL|].
    intros s Hs. apply in_map_iff in Hs. destruct Hs as [m [<- Hm]].
    destruct (Hwalked m Hm) as [Hl [dc [dr [md [j [Hw [Hj [Hx [Hy Hclear]]]]]]]]].
    pose proof (lands_on_in_board _ _ _ Hl) as Hin.
    pose proof Hl as Hsq. unfold lands_on in Hsq.
    exists m. eexists. exists dc, dr, md, j.
    split; [now apply parse_render|].
    apply in_board_iff in Hin.
    split; [tauto|]. split; [tauto|].
    split; [exact Hsq|].
    split; [now apply board_lookup|].
    repeat split; try assumption; lia.
Qed.

Lemma moves_stay_on_board_witness :
  exists ms,
    find_moves rook_board (mkPiece "white" "rook" 0 0 []) = Return ms
    /\ forall s,
         In s ms ->
         exists m sq dc dr md j,
           parse_move s = Some m
           /\ 0 <= target_column m <= 7
           /\ 0 <= target_row m <= 7
           /\ square_at rook_board (target_column m) (target_row m)
              = Some sq
           /\ (cells <- index rook_board (target_row m) ;;
               index cells (target_column m)) = Return (token sq)
           /\ In ((dc, dr), md) (walks_of (mkPiece "white" "rook" 0 0 []))
           /\ 1 <= j <= md
           /\ target_column m = 0 + j * dc
           /\ target_row m = 0 + j * dr
           /\ clear_path rook_board dc dr 0 0 j
           /\ lands_on rook_board White m.
Proof.
  exact (proj2 (moves_stay_on_board rook_board
                                    (mkPiece "white" "rook" 0 0 []) White
                                    eq_refl eq_refl)).
Defined.

(** C8: for every board, color and piece of that color, no emitted
    capturing move targets a square occupied by a piece of the moving
    piece's own color: its target holds the captured kind in the
    opposing color. *)
Theorem captures_take_opponents (b : list (list string)) (piece : Piece)
        (mover : Color) :
  valid_board b = true ->
  color piece = color_name mover ->
  exists ms,
    find_moves b piece = Return ms
    /\ forall m k,
         emits ms m -> capture m = Some k ->
         square_at b (target_column m) (target_row m)
         = Some (Occupied (opponent mover) k)
         /\ forall k', square_at b (target_column m) (target_row m)
                       <> Some (Occupied mover k').
Proof.
  intros Hb Hc.
  destruct (find_moves_reports b piece mover Hb Hc) as [ms [Hms Hall]].
  exists ms. split; [assumption|].
  intros m k [s [Hs Hp]] Hk. rewrite Forall_forall in Hall.
  destruct (report_parses b mover s (Hall s Hs)) as [m' [Hp' Hl]].
  assert (m' = m) by congruence. subst m'.
  unfold lands_on in Hl. rewrite Hk in Hl.
  split; [assumption|].
  intros k'. rewrite Hl. destruct mover; discriminate.
Qed.

Lemma captures_take_opponents_witness :
  exists ms,
    find_moves rook_board (mkPiece "white" "rook" 0 0 []) = Return ms
    /\ forall m k,
         emits ms m -> capture m = Some k ->
         square_at rook_board (target_column m) (target_row m)
         = Some (Occupied (opponent White) k)
         /\ forall k', square_at rook_board (target_column m) (target_row m)
                       <> Some (Occupied White k').
Proof.
  apply (captures_take_opponents rook_board
                                 (mkPiece "white" "rook" 0 0 []) White);
    reflexivity.
Defined.

(** C9: for every validated board and color, the collector returns one
    piece for every square of the 64 whose occupant has that color and
    none for any other square, each piece carrying the occupant's kind,
    its square and its moves; the pieces come in scan order, rows 0 up to
    7 for White and 7 down to 0 for Black, columns left to right within
    a row, so that no square is reported twice. *)
Theorem collector_scans_in_order (b : list (list string)) (mover : Color) :
  valid_board b = true ->
  exists ps,
    find_pieces b (color_code mover) = Return ps
    /\ (forall p,
          In p ps ->
          color p = color_name mover
          /\ exists k,
              name p = kind_name k
              /\ square_at b (column p) (row p) = Some (Occupied mover k)
              /\ find_moves b (mkPiece (color p) (name p)
                                       (column p) (row p) [])
                 = Return (moves p))
    /\ (forall c r k,
          square_at b c r = Some (Occupied mover k) ->
          exists p, In p ps /\ column p = c /\ row p = r
                    /\ forall q, In q ps -> column q = c -> row q = r ->
                                 q = p)
    /\ StronglySorted (scanned_before mover) ps.
Proof.
  intros Hb. rewrite (find_pieces_list b mover Hb).
  eexists. split; [reflexivity|].
  assert (Hin : forall p,
             In p (flat_map (fun r => flat_map (fun c => piece_at b mover c r)
                                               (range 8))
                            (scan_rows mover))
             <-> In p (piece_at b mover (column p) (row p))).
  { intros p. rewrite in_flat_map. split.
    - intros [r [_ H]]. apply in_flat_map in H. destruct H as [c [_ H]].
      pose proof H as H'. apply piece_at_In in H'.
      destruct H' as [k [_ ->]]. exact H.
    - intros H. pose proof H as H'. apply piece_at_In in H'.
      destruct H' as [k [Hsq _]]. apply square_at_Some in Hsq.
      destruct Hsq as [Hsq _]. apply in_board_iff in Hsq.
      exists (row p). split; [apply scan_rows_range; lia|].
      apply in_flat_map. exists (column p).
      split; [apply in_range; lia | assumption]. }
  split; [|split].
  - intros p Hp. apply Hin, piece_at_In in Hp.
    destruct Hp as [k [Hsq Hp]].
    assert (Hmoves : exists ms,
               find_moves b (mkPiece (color_name mover) (kind_name k)
                                     (column p) (row p) []) = Return ms)
      by (destruct (find_moves_reports
                      b (mkPiece (color_name mover) (kind_name k)
                                 (column p) (row p) []) mover Hb eq_refl)
           as [ms [Hms _]]; eauto).
    destruct Hmoves as [ms Hms].
    unfold moves_of in Hp. rewrite Hms in Hp.
    rewrite Hp. simpl. split; [reflexivity|].
    exists k. rewrite Hp in Hsq, Hms. simpl in Hsq, Hms. auto.
  - intros c r k Hsq.
    set (p := mkPiece (color_name mover) (kind_name k) c r
                      (moves_of b (mkPiece (color_name mover) (kind_name k)
                                           c r []))).
    exists p. split; [|split; [reflexivity | split; [reflexivity|]]].
    + apply Hin. simpl. apply piece_at_In. eauto.
    + intros q Hq Hc Hr. apply Hin in Hq. rewrite Hc, Hr in Hq.
      apply piece_at_In in Hq. destruct Hq as [k' [Hsq' ->]].
      assert (k' = k) by congruence. subst k'. reflexivity.
  - apply (StronglySorted_flat_map _ (row_before mover));
      [apply scan_rows_sorted | |].
    + intros r _.
      apply (StronglySorted_flat_map _ Z.lt); [apply range_sorted | |].
      * intros c _. unfold piece_at.
        destruct (square_at b c r) as [[|oc k]|]; try constructor.
        destruct (color_eqb oc mover); repeat constructor.
      * intros c c' p q Hlt Hp Hq. apply piece_at_In in Hp, Hq.
        destruct Hp as [k [_ ->]]. destruct Hq as [k' [_ ->]].
        right. simpl. auto.
    + intros r r' p q Hlt Hp Hq.
      apply in_flat_map in Hp, Hq.
      destruct Hp as [c [_ Hp]]. destruct Hq as [c' [_ Hq]].
      apply piece_at_In in Hp, Hq.
      destruct Hp as [k [_ ->]]. destruct Hq as [k' [_ ->]].
      left. exact Hlt.
Qed.

Lemma collector_scans_in_order_witness :
  exists ps,
    find_pieces starting_board (color_code Black) = Return ps
    /\ StronglySorted (scanned_before Black) ps.
Proof.
  destruct (collector_scans_in_order starting_board Black eq_refl)
    as [ps [Hps [_ [_ Hs]]]].
  exists ps. split; [exact Hps | exact Hs].
Defined.

(** C10: for every piece, direction vector and integer maxSteps (zero
    and negative included) the loop of [walk] terminates: every pass
    lowers the remaining budget by one, no pass is made from a coordinate
    off the board or without budget left, and a pass that steps off the
    board leaves the loop; so a number of passes equal to the budget is
    always enough and more are never used.  [walk] therefore always
    finishes (at once, with no move, when maxSteps is zero or negative),
    and so does move generation for any board and color; on a validated
    board it finishes with a list of pieces. *)
Theorem walk_terminates (b : list (list string)) (color : string)
        (dc dr : Z) (v : walk_vars) (fuel : nat) :
  (Z.to_nat (w_max_distance v) <= fuel)%nat ->
  (forall p, walk_body b color dc dr v = Return p ->
             w_max_distance (vars_of p) = w_max_distance v - 1)
  /\ (walk_test v = true ->
      in_board (w_column v) (w_row v) = true /\ 0 < w_max_distance v)
  /\ (in_board (w_column v + dc) (w_row v + dr) = false ->
      exists v', walk_body b color dc dr v = Return (Break v'))
  /\ walk_loop b fuel color dc dr v <> OutOfFuel
  /\ walk_loop b fuel color dc dr v
     = walk_loop b (Z.to_nat (w_max_distance v)) color dc dr v
  /\ (forall piece steps max_distance,
         walk b piece steps max_distance <> OutOfFuel)
  /\ (forall piece steps max_distance,
         max_distance <= 0 -> walk b piece steps max_distance = Return [])
  /\ (forall piece, find_moves b piece <> OutOfFuel)
  /\ (forall c, find_pieces b c <> OutOfFuel)
  /\ (valid_board b = true ->
      forall mover, exists ps, find_pieces b (color_code mover) = Return ps).
Proof.
  intros Hfuel.
  split; [intros p; apply walk_body_budget|].
  split; [now apply walk_test_true|].
  split.
  { intros Hoff. unfold walk_body.
    rewrite <- negb_andb, <- in_board_range8, Hoff.
    simpl. eauto. }
  split; [now apply walk_loop_finishes|].
  split; [now apply walk_loop_fuel|].
  split; [intros; apply walk_finishes|].
  split.
  { intros piece steps md Hmd. unfold walk.
    replace (Z.to_nat md) with 0%nat by lia. simpl.
    replace (walk_test _) with false; [reflexivity|].
    symmetry. apply walk_test_false. now right. }
  split; [intros; apply find_moves_finishes|].
  split; [intros; apply find_pieces_finishes|].
  intros Hb mover. rewrite (find_pieces_list b mover Hb). eauto.
Qed.

Lemma walk_terminates_witness :
  walk_loop starting_board 5 "white" 0 (-1) (mkVars 0 6 (-3) [] false)
  <> OutOfFuel
  /\ walk_loop starting_board 5 "white" 0 (-1) (mkVars 0 6 2 [] false)
     = walk_loop starting_board (Z.to_nat 2) "white" 0 (-1)
                 (mkVars 0 6 2 [] false).
Proof.
  split.
  - apply (walk_terminates starting_board "white" 0 (-1)
                           (mkVars 0 6 (-3) [] false) 5).
    simpl. lia.
  - apply (walk_terminates starting_board "white" 0 (-1)
                           (mkVars 0 6 2 [] false) 5).
    simpl. lia.
Defined.

(** ** Further properties: the reach of [walk] *)

Lemma ray_shape (b : list (list string)) (mover : Color) (dc dr : Z)
      (n : nat) :
  forall (c r : Z),
    (List.length (ray b mover dc dr n c r) <= n)%nat
    /\ forall pre m post,
         ray b mover dc dr n c r = pre ++ m :: post ->
         is_capture m = true -> post = [].
Proof.
  induction n as [|n IH]; intros c r; simpl.
  - split; [lia|]. intros [|x pre] m post H; discriminate.
  - destruct (square_at b (c + dc) (r + dr)) as [[|oc k]|].
    + destruct (IH (c + dc) (r + dr)) as [Hlen Hlast]. simpl.
      split; [lia|].
      intros [|x pre] m post H Hcap; simpl in H; inversion H; subst.
      * discriminate.
      * eapply Hlast; eauto.
    + destruct (color_eqb oc mover); simpl.
      * split; [lia|]. intros [|x pre] m post H; discriminate.
      * split; [lia|].
        intros [|x [|y pre]] m post H _; simpl in H; inversion H; auto.
    + simpl. split; [lia|]. intros [|x pre] m post H; discriminate.
Qed.

(** X1: [walk] reports a square exactly when the square lies within
    [max_distance] steps along the direction, every square before it is
    empty, and it is itself empty or holds an opposing piece: it never
    jumps over a piece and never leaves out a square it can reach. *)
Theorem walk_reaches_exactly (b : list (list string)) (piece : Piece)
        (mover : Color) (dc dr max_distance : Z) :
  valid_board b = true ->
  color piece = color_name mover ->
  in_board (column piece) (row piece) = true ->
  exists ms,
    walk b piece (dc, dr) max_distance = Return ms
    /\ forall m,
         emits ms m <->
         exists j, 1 <= j <= max_distance
                   /\ reached b mover dc dr (column piece) (row piece) j m.
Proof.
  intros Hb Hc Hin.
  rewrite (walk_moves b piece mover) by assumption.
  eexists. split; [reflexivity|].
  intros m. rewrite emits_render by (intros n; apply walker_in_board).
  unfold walker. rewrite Hin, ray_reached.
  split; intros [j [Hj Hm]]; exists j; (split; [lia | assumption]).
Qed.

Lemma walk_reaches_exactly_witness :
  exists ms,
    walk rook_board (mkPiece "white" "rook" 0 0 []) (0, 1) 7 = Return ms
    /\ forall m,
         emits ms m <->
         exists j, 1 <= j <= 7 /\ reached rook_board White 0 1 0 0 j m.
Proof.
  apply (walk_reaches_exactly rook_board (mkPiece "white" "rook" 0 0 [])
                              White 0 1 7); reflexivity.
Defined.

(** X2: [walk] reports at most [max_distance] moves, and a capture only as
    the last of them. *)
Theorem walk_capture_is_last (b : list (list string)) (piece : Piece)
        (mover : Color) (steps : Z * Z) (max_distance : Z) :
  valid_board b = true ->
  color piece = color_name mover ->
  exists ms,
    walk b piece steps max_distance = Return ms
    /\ (List.length ms <= Z.to_nat max_distance)%nat
    /\ forall pre s post,
         ms = pre ++ s :: post -> contains "Capture" s = true -> post = [].
Proof.
  intros Hb Hc. destruct steps as [dc dr].
  rewrite (walk_moves b piece mover) by assumption.
  eexists. split; [reflexivity|].
  unfold walker. destruct (in_board (column piece) (row piece)).
  - destruct (ray_shape b mover dc dr (Z.to_nat max_distance)
                        (column piece) (row piece)) as [Hlen Hlast].
    split; [now rewrite length_map|].
    intros pre s post H Hcap.
    apply map_eq_app in H. destruct H as [Lpre [L2 [HL [_ H2]]]].
    apply map_eq_cons in H2. destruct H2 as [m [Lpost [-> [Hs Hpost]]]].
    subst s post.
    assert (Hm : In m (ray b mover dc dr (Z.to_nat max_distance)
                           (column piece) (row piece)))
      by (rewrite HL; apply in_or_app; right; now left).
    apply ray_lands in Hm. destruct Hm as [Hm _].
    apply lands_on_in_board, report_tests in Hm. destruct Hm as [Hm _].
    rewrite Hm in Hcap. now rewrite (Hlast _ _ _ HL Hcap).
  - simpl. split; [lia|]. intros [|x pre] s post H; discriminate.
Qed.

Lemma walk_capture_is_last_witness :
  exists ms,
    walk rook_board (mkPiece "white" "rook" 0 0 []) (0, 1) 7 = Return ms
    /\ (List.length ms <= Z.to_nat 7)%nat
    /\ forall pre s post,
         ms = pre ++ s :: post -> contains "Capture" s = true -> post = [].
Proof.
  apply (walk_capture_is_last rook_board (mkPiece "white" "rook" 0 0 [])
                              White (0, 1) 7); reflexivity.
Defined.

(** ** Further properties: [find_moves] piece by piece *)

(** X3: A piece whose square is off the board is given no move and raises
    nothing, whatever its name and color and whatever the board holds. *)
Theorem off_board_piece_has_no_moves (b : list (list string))
        (piece : Piece) :
  in_board (column piece) (row piece) = false ->
  find_moves b piece = Return [].
Proof.
  intros Hoff. unfold find_moves.
  destruct (str_in_list (name piece) (keys move_options)) eqn:Hk.
  - apply lookup_in_keys in Hk. destruct Hk as [[paths d] [-> Hin]].
    rewrite bind_Return.
    rewrite (for_in_collect paths _ (fun _ => [])).
    + f_equal. clear. induction paths; simpl; auto.
    + intros s path Hp.
      destruct (path_known _ _ _ _ Hin Hp) as [step ->].
      rewrite bind_Return, walk_off_board by assumption.
      rewrite bind_Return. reflexivity.
  - destruct (String.eqb (name piece) "pawn").
    + unfold pawn_moves.
      destruct (String.eqb (color piece) "white"); cbv iota beta zeta;
        rewrite walk_off_board by assumption; rewrite bind_Return;
        simpl for_in;
        rewrite !walk_off_board by assumption; reflexivity.
    + unfold knight_moves.
      rewrite (for_in_collect knight_options _ (fun _ => [])).
      * reflexivity.
      * intros s path _. rewrite walk_off_board by assumption.
        rewrite bind_Return. reflexivity.
Qed.

Lemma off_board_piece_has_no_moves_witness :
  find_moves [] (mkPiece "white" "queen" 8 0 []) = Return [].
Proof.
  apply (off_board_piece_has_no_moves [] (mkPiece "white" "queen" 8 0 [])).
  reflexivity.
Defined.

Lemma for_in_app {A S : Type} (xs ys : list A) (body : S -> A -> run S)
      (s : S) :
  for_in (xs ++ ys) body s = bind (for_in xs body s) (for_in ys body).
Proof.
  revert s. induction xs as [|x xs IH]; intros s; simpl; [reflexivity|].
  destruct (body s x); simpl; auto.
Qed.

(** A loop that only appends to its list can be run from the empty list
    and its result appended afterwards. *)
Lemma for_in_appends {A B : Type} (xs : list A)
      (body : list B -> A -> run (list B)) (f : A -> run (list B)) :
  (forall s x, body s x = bind (f x) (fun w => Return (s ++ w))) ->
  forall s, for_in xs body s
            = bind (for_in xs body []) (fun r => Return (s ++ r)).
Proof.
  intros Hbody. induction xs as [|x xs IH]; intros s; simpl.
  - now rewrite app_nil_r.
  - rewrite !Hbody. destruct (f x) as [w| |]; simpl; try reflexivity.
    rewrite (IH (s ++ w)), (IH w).
    destruct (for_in xs body []) as [r| |]; simpl; try reflexivity.
    now rewrite app_assoc.
Qed.

(** X4: The queen's moves are the rook's moves followed by the bishop's, on
    every board; when the rook's or the bishop's generation raises, the
    queen's raises the same exception. *)
Theorem queen_is_rook_then_bishop (b : list (list string)) (color : string)
        (column row : Z) (ms : list string) :
  find_moves b (mkPiece color "queen" column row ms)
  = (rook <- find_moves b (mkPiece color "rook" column row ms) ;;
     bishop <- find_moves b (mkPiece color "bishop" column row ms) ;;
     Return (rook ++ bishop)).
Proof.
  unfold find_moves. cbn [name].
  change (str_in_list "queen" (keys move_options)) with true.
  change (str_in_list "rook" (keys move_options)) with true.
  change (str_in_list "bishop" (keys move_options)) with true.
  cbv iota.
  change (lookup move_options "queen")
    with (Return ((cross_moves ++ diagonal_moves)%list, 7)
          : run (list string * Z)).
  change (lookup move_options "rook")
    with (Return (cross_moves, 7) : run (list string * Z)).
  change (lookup move_options "bishop")
    with (Return (diagonal_moves, 7) : run (list string * Z)).
  rewrite !bind_Return. cbv beta iota zeta.
  set (body := fun p : Piece =>
                 fun (moves : list string) (path : string) =>
                   step <- lookup move_changes path ;;
                   w <- walk b p step 7 ;; Return (moves ++ w)).
  change (for_in (cross_moves ++ diagonal_moves)
                 (body (mkPiece color "queen" column row ms)) []
          = (rook <- for_in cross_moves
                            (body (mkPiece color "rook" column row ms)) [] ;;
             bishop <- for_in diagonal_moves
                              (body (mkPiece color "bishop" column row ms))
                              [] ;;
             Return (rook ++ bishop))).
  assert (Hsame : forall n, body (mkPiece color n column row ms)
                            = body (mkPiece color "queen" column row ms))
    by reflexivity.
  rewrite (Hsame "rook"%string), (Hsame "bishop"%string), for_in_app.
  destruct (for_in cross_moves _ []) as [rook| |]; simpl; try reflexivity.
  apply (for_in_appends
           diagonal_moves _
           (fun path => step <- lookup move_changes path ;;
                        walk b (mkPiece color "queen" column row ms) step 7)).
  intros s path. unfold body.
  destruct (lookup move_changes path); reflexivity.
Qed.

(** X5: Rook, bishop, queen and king keep to their lines: every move of a
    rook stays on its row or column, every move of a bishop on a
    diagonal, every move of a queen on one or the other, and every move
    of a king ends on a neighbouring square; none ends on the piece's
    own square. *)
Theorem sliders_keep_their_lines (b : list (list string)) (piece : Piece)
        (mover : Color) :
  valid_board b = true ->
  color piece = color_name mover ->
  exists ms,
    find_moves b piece = Return ms
    /\ forall m,
         emits ms m ->
         let dc := target_column m - column piece in
         let dr := target_row m - row piece in
         (name piece = "rook"%string ->
          (dc = 0 /\ dr <> 0) \/ (dr = 0 /\ dc <> 0))
         /\ (name piece = "bishop"%string ->
             Z.abs dc = Z.abs dr /\ dc <> 0)
         /\ (name piece = "queen"%string ->
             (dc = 0 /\ dr <> 0) \/ (dr = 0 /\ dc <> 0)
             \/ (Z.abs dc = Z.abs dr /\ dc <> 0))
         /\ (name piece = "king"%string ->
             Z.abs dc <= 1 /\ Z.abs dr <= 1 /\ (dc <> 0 \/ dr <> 0)).
Proof.
  intros Hb Hc.
  destruct (find_moves_reports b piece mover Hb Hc) as [ms [Hms _]].
  exists ms. split; [assumption|].
  intros m Hm dc dr.
  assert (Hgeo : forall n,
             name piece = n ->
             str_in_list n (keys move_options) = true ->
             exists d j, In d (directions_of n)
                         /\ 1 <= j <= Z.of_nat (Z.to_nat (reach_of n))
                         /\ dc = j * fst d /\ dr = j * snd d).
  { intros n Hn Hk. subst n.
    rewrite (slider_moves b piece mover Hb Hc Hk) in Hms.
    inversion Hms; subst ms. clear Hms.
    apply emits_render in Hm.
    - apply in_flat_map in Hm. destruct Hm as [d [Hd Hm]].
      apply walker_reached in Hm. destruct Hm as [j [Hj [Hx [Hy _]]]].
      exists d, j. unfold dc, dr. repeat split; try assumption; lia.
    - intros n Hn. apply in_flat_map in Hn. destruct Hn as [d [_ Hn]].
      now apply walker_in_board in Hn. }
  split; [|split; [|split]]; intros Hn;
    destruct (Hgeo _ Hn eq_refl) as [d [j [Hd [Hj [Hx Hy]]]]];
    vm_compute in Hd;
    match type of Hj with
    | context [Z.of_nat ?t] =>
        let v := eval vm_compute in (Z.of_nat t) in
        change (Z.of_nat t) with v in Hj
    end;
    repeat (destruct Hd as [<-|Hd]; [simpl in Hx, Hy; lia|]);
    destruct Hd.
Qed.

Lemma sliders_keep_their_lines_witness :
  exists ms,
    find_moves rook_board (mkPiece "white" "rook" 0 0 []) = Return ms
    /\ forall m,
         emits ms m ->
         ("rook"%string = "rook"%string ->
          (target_column m - 0 = 0 /\ target_row m - 0 <> 0)
          \/ (target_row m - 0 = 0 /\ target_column m - 0 <> 0)).
Proof.
  destruct (sliders_keep_their_lines
              rook_board (mkPiece "white" "rook" 0 0 []) White
              eq_refl eq_refl) as [ms [Hms H]].
  exists ms. split; [exact Hms|].
  intros m Hm. exact (proj1 (H m Hm)).
Defined.

(** X8: The knight rule as the code has it: a move is reported exactly when
    its target lies at one of the offsets of the code's table from the
    knight's square and is empty or holds an opposing piece.  Every
    reported move is an L-shaped jump. *)
Theorem knight_moves_by_table (b : list (list string)) (piece : Piece)
        (mover : Color) :
  valid_board b = true ->
  color piece = color_name mover ->
  in_board (column piece) (row piece) = true ->
  exists ms,
    knight_moves b piece = Return ms
    /\ (forall m,
          emits ms m <->
          (exists d, In d knight_options
                     /\ target_column m = column piece + fst d
                     /\ target_row m = row piece + snd d)
          /\ lands_on b mover m /\ promotion m = false)
    /\ (forall m,
          emits ms m ->
          let dc := Z.abs (target_column m - column piece) in
          let dr := Z.abs (target_row m - row piece) in
          (dc = 1 /\ dr = 2) \/ (dc = 2 /\ dr = 1)).
Proof.
  intros Hb Hc Hin. rewrite (knight_moves_list b piece mover Hb Hc).
  eexists. split; [reflexivity|].
  assert (Hiff : forall m,
             emits (map render
                        (flat_map (fun d => walker b mover (fst d) (snd d) 1
                                                   (column piece) (row piece))
                                  knight_options)) m <->
             (exists d, In d knight_options
                        /\ target_column m = column piece + fst d
                        /\ target_row m = row piece + snd d)
             /\ lands_on b mover m /\ promotion m = false).
  { intros m. rewrite emits_render.
    - rewrite in_flat_map. unfold walker. rewrite Hin. split.
      + intros [d [Hd Hm]]. apply ray_reached in Hm.
        destruct Hm as [j [Hj [Hx [Hy [Hp [_ Hl]]]]]].
        assert (j = 1) by lia. subst j.
        rewrite Z.mul_1_l in Hx, Hy. eauto 8.
      + intros [[d [Hd [Hx Hy]]] [Hl Hp]]. exists d. split; [assumption|].
        apply ray_reached. exists 1. split; [lia|].
        unfold reached, clear_path. rewrite !Z.mul_1_l.
        repeat split; auto. intros i Hi. lia.
    - intros n Hn. apply in_flat_map in Hn. destruct Hn as [d [_ Hn]].
      now apply walker_in_board in Hn. }
  split; [exact Hiff|].
  intros m Hm dc dr. apply Hiff in Hm.
  destruct Hm as [[d [Hd [Hx Hy]]] _].
  unfold dc, dr. rewrite Hx, Hy. unfold knight_options in Hd. simpl in Hd.
  repeat (destruct Hd as [<-|Hd]; [simpl; lia|]). destruct Hd.
Qed.

Lemma knight_moves_by_table_witness :
  exists ms,
    knight_moves starting_board (mkPiece "white" "knight" 6 7 []) = Return ms
    /\ forall m,
         emits ms m ->
         (Z.abs (target_column m - 6) = 1 /\ Z.abs (target_row m - 7) = 2)
         \/ (Z.abs (target_column m - 6) = 2
             /\ Z.abs (target_row m - 7) = 1).
Proof.
  destruct (knight_moves_by_table
              starting_board (mkPiece "white" "knight" 6 7 []) White
              eq_refl eq_refl eq_refl) as [ms [Hms [_ H]]].
  exists ms. split; [exact Hms | exact H].
Defined.

Lemma ray_grows (b : list (list string)) (mover : Color) (dc dr : Z)
      (n n' : nat) (c r : Z) (m : Move) :
  (n <= n')%nat ->
  In m (ray b mover dc dr n c r) -> In m (ray b mover dc dr n' c r).
Proof.
  intros Hn. rewrite !ray_reached. intros [j [Hj Hm]].
  exists j. split; [lia | assumption].
Qed.

(** X7: Every move of a king is also a move of a queen on the same square. *)
Theorem king_moves_among_queen_moves (b : list (list string))
        (mover : Color) (c r : Z) (ms : list string) :
  valid_board b = true ->
  exists king queen,
    find_moves b (mkPiece (color_name mover) "king" c r ms)
    = Return king
    /\ find_moves b (mkPiece (color_name mover) "queen" c r ms)
       = Return queen
    /\ incl king queen.
Proof.
  intros Hb.
  rewrite (slider_moves b (mkPiece (color_name mover) "king" c r ms)
                        mover Hb eq_refl eq_refl).
  rewrite (slider_moves b (mkPiece (color_name mover) "queen" c r ms)
                        mover Hb eq_refl eq_refl).
  eexists _, _. split; [reflexivity|]. split; [reflexivity|].
  cbn [name column row].
  change (directions_of "king") with (directions_of "queen").
  intros s Hs. apply in_map_iff in Hs. destruct Hs as [m [<- Hm]].
  apply in_map. apply in_flat_map in Hm. destruct Hm as [d [Hd Hm]].
  apply in_flat_map. exists d. split; [assumption|].
  unfold walker in *. destruct (in_board c r); [|destruct Hm].
  eapply ray_grows; [|eassumption].
  vm_compute. lia.
Qed.

Lemma king_moves_among_queen_moves_witness :
  exists king queen,
    find_moves rook_board (mkPiece (color_name White) "king" 0 0 [])
    = Return king
    /\ find_moves rook_board (mkPiece (color_name White) "queen" 0 0 [])
       = Return queen
    /\ incl king queen.
Proof.
  apply (king_moves_among_queen_moves rook_board White 0 0 []).
  reflexivity.
Defined.

(** ** Further properties: the collector and the constructor on other
    input *)

Lemma flat_map_nothing {A B : Type} (xs : list A) :
  flat_map (fun _ : A => @nil B) xs = [].
Proof. induction xs; simpl; auto. Qed.

Lemma scan_order_range (color : string) (r : Z) :
  In r (if String.eqb color "b" then rev (range 8) else range 8) ->
  0 <= r <= 7.
Proof.
  destruct (String.eqb color "b"); [rewrite <- in_rev|]; apply range_in.
Qed.

Lemma valid_board_row (b : list (list string)) (r : Z) :
  valid_board b = true -> 0 <= r <= 7 ->
  exists cells,
    index b r = Return cells
    /\ forall c, 0 <= c <= 7 ->
                 exists sq, square_at b c r = Some sq
                            /\ index cells c = Return (token sq).
Proof.
  intros Hb Hr.
  destruct (valid_board_square b 0 r Hb) as [sq0 Hsq0];
    [apply in_board_iff; lia|].
  apply square_at_Some in Hsq0. destruct Hsq0 as [_ [cells [Hcells _]]].
  exists cells. split; [apply index_nth_error; [lia | assumption]|].
  intros c Hc.
  destruct (valid_board_square b c r Hb) as [sq Hsq];
    [apply in_board_iff; lia|].
  exists sq. split; [assumption|].
  apply square_at_Some in Hsq. destruct Hsq as [_ [cells' [Hr' Hc']]].
  assert (cells' = cells) by congruence. subst cells'.
  apply index_nth_error; [lia | assumption].
Qed.

Lemma token_first (sq : Square) :
  str_index (token sq) 0
  = Return match sq with
           | Empty => "x"%string
           | Occupied oc _ => color_code oc
           end.
Proof. destruct sq as [|[] []]; reflexivity. Qed.

(** X9: A color code other than [w], [b] and [x] matches no square: the
    collector returns no piece, and raises nothing. *)
Theorem find_pieces_unknown_color (b : list (list string)) (color : string) :
  valid_board b = true ->
  color <> "w"%string -> color <> "b"%string -> color <> "x"%string ->
  find_pieces b color = Return [].
Proof.
  intros Hb Hw Hbl Hx. unfold find_pieces.
  rewrite (for_in_collect _ _ (fun _ => [])).
  - now rewrite flat_map_nothing.
  - intros s r Hr. apply scan_order_range in Hr.
    destruct (valid_board_row b r Hb Hr) as [cells [-> Hcells]].
    rewrite bind_Return.
    rewrite (for_in_collect _ _ (fun _ => [])).
    + now rewrite flat_map_nothing.
    + intros s' c Hc. apply range_in in Hc.
      destruct (Hcells c Hc) as [sq [_ ->]].
      rewrite bind_Return, token_first, bind_Return.
      replace (String.eqb _ color) with false; [now rewrite app_nil_r|].
      symmetry. apply String.eqb_neq.
      destruct sq as [|[] k]; simpl; congruence.
Qed.

Lemma find_pieces_unknown_color_witness :
  find_pieces starting_board "white" = Return [].
Proof.
  apply (find_pieces_unknown_color starting_board "white");
    [reflexivity | discriminate | discriminate | discriminate].
Defined.

Lemma for_in_dichotomy {A S : Type} (xs : list A) (body : S -> A -> run S)
      (e : exn) (P : A -> Prop) :
  (forall x, In x xs ->
             (P x /\ forall s, body s x = Raise e)
             \/ (~ P x /\ forall s, body s x = Return s)) ->
  ((exists x, In x xs /\ P x) /\ forall s, for_in xs body s = Raise e)
  \/ ((forall x, In x xs -> ~ P x) /\ forall s, for_in xs body s = Return s).
Proof.
  induction xs as [|x xs IH]; intros H.
  - right. split; [intros x [] | reflexivity].
  - destruct (H x (or_introl eq_refl)) as [[HP Hx]|[HP Hx]].
    + left. split; [exists x; simpl; auto|].
      intros s. simpl. now rewrite Hx.
    + destruct IH as [[[y [Hy HPy]] Hr]|[Hn Hr]];
        [intros y Hy; apply H; now right | |].
      * left. split; [exists y; simpl; auto|].
        intros s. simpl. rewrite Hx. apply Hr.
      * right. split.
        -- intros y [<-|Hy]; auto.
        -- intros s. simpl. rewrite Hx. apply Hr.
Qed.

(** X10: The color code [x] makes the collector take the empty marker for a
    piece: it raises IndexError (reading the kind of the token [x]) as
    soon as the board has an empty square, and returns no piece on a
    board that has none. *)
Theorem find_pieces_empty_marker (b : list (list string)) :
  valid_board b = true ->
  ((exists c r, square_at b c r = Some Empty) ->
   find_pieces b "x" = Raise IndexError)
  /\ ((forall c r, square_at b c r <> Some Empty) ->
      find_pieces b "x" = Return []).
Proof.
  intros Hb.
  pose (inner := fun (row : list string) (row_index : Z)
                     (player_pieces : list Piece) (column_index : Z) =>
                   piece <- index row column_index ;;
                   p0 <- str_index piece 0 ;;
                   if String.eqb p0 "x" then
                     p1 <- str_index piece 1 ;;
                     pc <- new_Piece b "x" p1 column_index row_index ;;
                     Return (player_pieces ++ [pc])
                   else Return player_pieces).
  pose (outer := fun (player_pieces : list Piece) (row_index : Z) =>
                   row <- index b row_index ;;
                   for_in (range 8) (inner row row_index) player_pieces).
  change (find_pieces b "x") with (for_in (range 8) outer []).
  assert (Hinner : forall r cells,
             0 <= r <= 7 ->
             (forall c, 0 <= c <= 7 ->
                        exists sq, square_at b c r = Some sq
                                   /\ index cells c = Return (token sq)) ->
             ((exists c, In c (range 8) /\ square_at b c r = Some Empty)
              /\ forall s, for_in (range 8) (inner cells r) s
                           = Raise IndexError)
             \/ ((forall c, In c (range 8) ->
                            square_at b c r <> Some Empty)
                 /\ forall s, for_in (range 8) (inner cells r) s = Return s)).
  { intros r cells Hr Hcells.
    apply (for_in_dichotomy (range 8) (inner cells r) IndexError
                            (fun c => square_at b c r = Some Empty)).
    intros c Hc. apply range_in in Hc.
    destruct (Hcells c Hc) as [sq [Hsq Hidx]].
    destruct sq as [|oc k].
    - left. split; [assumption|]. intros s. unfold inner.
      rewrite Hidx. reflexivity.
    - right. split; [congruence|]. intros s. unfold inner.
      rewrite Hidx, bind_Return, token_first, bind_Return.
      now destruct oc. }
  destruct (for_in_dichotomy
              (range 8) outer IndexError
              (fun r => exists c, In c (range 8)
                                  /\ square_at b c r = Some Empty))
    as [[[r [Hr [c [Hc Hsq]]]] Hraise]|[Hnone Hret]].
  - intros r Hr. apply range_in in Hr.
    destruct (valid_board_row b r Hb Hr) as [cells [Hidx Hcells]].
    destruct (Hinner r cells Hr Hcells) as [[Hex Hrs]|[Hno Hrs]].
    + left. split; [assumption|]. intros s. unfold outer.
      now rewrite Hidx, bind_Return.
    + right. split.
      * intros [c [Hc Hsq]]. now apply (Hno c Hc).
      * intros s. unfold outer. now rewrite Hidx, bind_Return.
  - split; [intros _; apply Hraise|].
    intros Hfull. exfalso. now apply (Hfull c r).
  - split; [|intros _; apply Hret].
    intros [c [r Hsq]]. exfalso.
    pose proof (square_at_Some _ _ _ _ Hsq) as [Hin _].
    apply in_board_iff in Hin.
    apply (Hnone r); [apply in_range; lia|].
    exists c. split; [apply in_range; lia | assumption].
Qed.

Lemma find_pieces_empty_marker_witness :
  find_pieces starting_board "x" = Raise IndexError.
Proof.
  apply (find_pieces_empty_marker starting_board eq_refl).
  exists 0, 2. reflexivity.
Defined.

Lemma for_in_must_raise {A S : Type} (xs : list A) (body : S -> A -> run S)
      (x : A) :
  (forall s y, body s y <> OutOfFuel) ->
  In x xs ->
  (forall s, exists e, body s x = Raise e) ->
  forall s, exists e, for_in xs body s = Raise e.
Proof.
  intros Hfin Hx Hraise.
  induction xs as [|y xs IH]; [destruct Hx|]. intros s. simpl.
  destruct (body s y) as [s1|e|] eqn:Hy; simpl.
  - destruct Hx as [->|Hx]; [|now apply IH].
    destruct (Hraise s) as [e He]. congruence.
  - eauto.
  - exfalso. now apply (Hfin s y).
Qed.

(** X11: A board with fewer than eight rows: the collector raises, whatever
    the color code, and for [b], whose scan starts at row 7, the
    exception is IndexError. *)
Theorem find_pieces_short_board (b : list (list string)) :
  (List.length b < 8)%nat ->
  find_pieces b "b" = Raise IndexError
  /\ forall color, exists e, find_pieces b color = Raise e.
Proof.
  intros Hlen.
  assert (H7 : index b 7 = Raise IndexError) by (apply index_beyond; lia).
  split.
  - unfold find_pieces. simpl. now rewrite H7.
  - intros color. unfold find_pieces.
    apply (for_in_must_raise _ _ 7).
    + intros s r.
      apply bind_finishes; [apply index_finishes|]. intros cells.
      apply for_in_finishes. intros s' c.
      apply bind_finishes; [apply index_finishes|]. intros t.
      apply bind_finishes; [apply str_index_finishes|]. intros p0.
      destruct (String.eqb p0 color); [|discriminate].
      apply bind_finishes; [apply str_index_finishes|]. intros p1.
      apply bind_finishes; [|discriminate].
      unfold new_Piece.
      apply bind_finishes; [apply lookup_finishes|]. intros cn.
      apply bind_finishes; [apply lookup_finishes|]. intros n.
      apply bind_finishes; [apply find_moves_finishes | discriminate].
    + destruct (String.eqb color "b"); simpl; tauto.
    + intros s. rewrite H7. simpl. eauto.
Qed.

Lemma find_pieces_short_board_witness :
  find_pieces [empty_row; empty_row] "b" = Raise IndexError
  /\ forall color, exists e, find_pieces [empty_row; empty_row] color
                             = Raise e.
Proof.
  apply (find_pieces_short_board [empty_row; empty_row]). simpl. lia.
Defined.

Lemma lookup_missing {V : Type} (d : list (string * V)) (k : string) :
  ~ In k (keys d) -> lookup d k = Raise KeyError.
Proof.
  induction d as [|[k' v] d IH]; simpl; [reflexivity|].
  intros H. destruct (String.eqb_spec k' k) as [->|Hne]; [tauto|].
  apply IH. tauto.
Qed.

Lemma lookup_Return_or_KeyError {V : Type} (d : list (string * V))
      (k : string) :
  (exists v, lookup d k = Return v) \/ lookup d k = Raise KeyError.
Proof.
  induction d as [|[k' v] d IH]; simpl; [auto|].
  destruct (String.eqb k' k); eauto.
Qed.

(** X12: The constructor raises KeyError when the color code is not [w] or
    [b], or the kind code is not one of [p r n b q k]; no move is
    generated for such a piece. *)
Theorem constructor_rejects_unknown_codes (b : list (list string))
        (color name : string) (c r : Z) :
  ~ In color ["w"; "b"]%string
  \/ ~ In name ["p"; "r"; "n"; "b"; "q"; "k"]%string ->
  new_Piece b color name c r = Raise KeyError.
Proof.
  intros H. unfold new_Piece. destruct H as [H|H].
  - now rewrite (lookup_missing piece_colors color) by exact H.
  - destruct (lookup_Return_or_KeyError piece_colors color) as [[cn ->]| ->];
      [|reflexivity].
    rewrite bind_Return.
    now rewrite (lookup_missing piece_names name) by exact H.
Qed.

Lemma constructor_rejects_unknown_codes_witness :
  new_Piece starting_board "w" "x" 0 2 = Raise KeyError.
Proof.
  apply (constructor_rejects_unknown_codes starting_board "w" "x" 0 2).
  right. simpl. intros H.
  repeat (destruct H as [H|H]; [discriminate|]). exact H.
Defined.

(** ** Further properties: [readable_position] *)

Lemma render_plain (c r : Z) :
  render (mkMove c r None false) = (file_letter c ++ rank_digit r)%string.
Proof. unfold render. simpl. now rewrite string_app_empty. Qed.

(** X13: On the board, [readable_position] gives different squares different
    names. *)
Theorem readable_position_is_injective (c r c' r' : Z) :
  in_board c r = true -> in_board c' r' = true ->
  readable_position c r = readable_position c' r' ->
  c = c' /\ r = r'.
Proof.
  intros H H' Heq.
  rewrite !readable_position_in_board in Heq by assumption.
  inversion Heq as [Hname]. rewrite <- !render_plain in Hname.
  assert (Hm : Some (mkMove c r None false) = Some (mkMove c' r' None false)).
  { rewrite <- (parse_render (mkMove c r None false)) by assumption.
    rewrite <- (parse_render (mkMove c' r' None false)) by assumption.
    now rewrite Hname. }
  inversion Hm. auto.
Qed.

Lemma readable_position_is_injective_witness :
  readable_position 6 7 = readable_position 6 7 /\ (6 = 6 /\ 7 = 7).
Proof.
  split; [reflexivity|].
  apply (readable_position_is_injective 6 7 6 7); reflexivity.
Defined.

Lemma index_raises_IndexError {A : Type} (l : list A) (i : Z) (e : exn) :
  index l i = Raise e -> e = IndexError.
Proof.
  unfold index. destruct (_ && _); [destruct (nth_error _ _)|];
    congruence.
Qed.

Lemma str_index_beyond (s : string) (i : Z) :
  i < - Z.of_nat (List.length (list_ascii_of_string s))
  \/ Z.of_nat (List.length (list_ascii_of_string s)) <= i ->
  str_index s i = Raise IndexError.
Proof. intros H. unfold str_index. now rewrite index_beyond. Qed.

Lemma sixteen_cases (i : Z) :
  -8 <= i <= 7 ->
  i = -8 \/ i = -7 \/ i = -6 \/ i = -5 \/ i = -4 \/ i = -3 \/ i = -2
  \/ i = -1 \/ 0 <= i <= 7.
Proof. lia. Qed.

Lemma readable_position_wraps (c r : Z) :
  -8 <= c <= 7 -> -8 <= r <= 7 ->
  readable_position c r
  = Return (file_letter (c mod 8) ++ rank_digit (r mod 8))%string.
Proof.
  intros Hc Hr.
  apply sixteen_cases in Hc. apply sixteen_cases in Hr.
  destruct Hc as [Hc|[Hc|[Hc|[Hc|[Hc|[Hc|[Hc|[Hc|Hc]]]]]]]];
    [subst c..|each_of_eight Hc];
    (destruct Hr as [Hr|[Hr|[Hr|[Hr|[Hr|[Hr|[Hr|[Hr|Hr]]]]]]]];
     [subst r..|each_of_eight Hr]);
    reflexivity.
Qed.

(** X14: Off the board, [readable_position] fails exactly when the column
    or the row lies outside [-8,7]: then it raises IndexError.  With
    column and row both in [-8,7] it returns a name, that of the square
    (column mod 8, row mod 8), so a negative column or row is named like
    the square eight further along. *)
Theorem readable_position_off_board (c r : Z) :
  (in_board c r = true ->
   readable_position (c - 8) r = readable_position c r
   /\ readable_position c (r - 8) = readable_position c r)
  /\ (-8 <= c <= 7 -> -8 <= r <= 7 ->
      readable_position c r
      = Return (file_letter (c mod 8) ++ rank_digit (r mod 8))%string
      /\ readable_position c r = readable_position (c mod 8) (r mod 8)
      /\ in_board (c mod 8) (r mod 8) = true)
  /\ (c < -8 \/ 7 < c \/ r < -8 \/ 7 < r ->
      readable_position c r = Raise IndexError)
  /\ (readable_position c r = Raise IndexError <->
      c < -8 \/ 7 < c \/ r < -8 \/ 7 < r).
Proof.
  assert (Hout : c < -8 \/ 7 < c \/ r < -8 \/ 7 < r ->
                 readable_position c r = Raise IndexError).
  { intros H. unfold readable_position.
    destruct (str_index "abcdefgh" c) as [a|e|] eqn:Hc; simpl.
    + rewrite str_index_beyond; [reflexivity|].
      simpl. destruct H as [H|[H|H]]; try lia.
      * rewrite str_index_beyond in Hc by (simpl; lia). discriminate.
      * rewrite str_index_beyond in Hc by (simpl; lia). discriminate.
    + unfold str_index in Hc.
      destruct (index (list_ascii_of_string "abcdefgh") c) eqn:Hi;
        simpl in Hc; try discriminate.
      apply index_raises_IndexError in Hi. congruence.
    + exfalso. revert Hc. apply str_index_finishes. }
  assert (Hmod : -8 <= c <= 7 -> -8 <= r <= 7 ->
                 in_board (c mod 8) (r mod 8) = true).
  { intros Hc Hr. apply in_board_iff.
    pose proof (Z.mod_pos_bound c 8). pose proof (Z.mod_pos_bound r 8).
    lia. }
  split; [|split; [|split]].
  - intros H. apply in_board_iff in H. destruct H as [Hc Hr].
    rewrite !readable_position_wraps by lia.
    replace ((c - 8) mod 8) with (c mod 8)
      by (rewrite <- (Z_mod_plus_full (c - 8) 1 8); f_equal; lia).
    replace ((r - 8) mod 8) with (r mod 8)
      by (rewrite <- (Z_mod_plus_full (r - 8) 1 8); f_equal; lia).
    split; reflexivity.
  - intros Hc Hr. split; [now apply readable_position_wraps|].
    split; [|now apply Hmod].
    rewrite readable_position_wraps by assumption.
    symmetry. apply readable_position_in_board. now apply Hmod.
  - exact Hout.
  - split; [|exact Hout].
    intros Hraise.
    destruct (Z_lt_le_dec c (-8)); [lia|].
    destruct (Z_lt_le_dec 7 c); [lia|].
    destruct (Z_lt_le_dec r (-8)); [lia|].
    destruct (Z_lt_le_dec 7 r); [lia|].
    rewrite readable_position_wraps in Hraise by lia. discriminate.
Qed.

Lemma readable_position_off_board_witness :
  (readable_position (7 - 8) 7 = readable_position 7 7
   /\ readable_position 7 (7 - 8) = readable_position 7 7)
  /\ (readable_position (-1) (-1)
      = Return (file_letter (-1 mod 8) ++ rank_digit (-1 mod 8))%string
      /\ readable_position (-1) (-1)
         = readable_position (-1 mod 8) (-1 mod 8)
      /\ in_board (-1 mod 8) (-1 mod 8) = true)
  /\ readable_position 8 0 = Raise IndexError.
Proof.
  split; [|split].
  - apply (proj1 (readable_position_off_board 7 7)). reflexivity.
  - apply (proj1 (proj2 (readable_position_off_board (-1) (-1)))); lia.
  - apply (proj1 (proj2 (proj2 (readable_position_off_board 8 0)))). lia.
Defined.

(** ** Further properties: [format] and the board display *)

Lemma string_pair_ind (P : string -> Prop) :
  P EmptyString ->
  (forall c, P (String c EmptyString)) ->
  (forall c d t, P t -> P (String d t) -> P (String c (String d t))) ->
  forall t, P t.
Proof.
  intros H0 H1 H2 t.
  enough (H : P t /\ forall c, P (String c t)) by apply H.
  induction t as [|d t [IHt IHd]]; split; auto.
Qed.

Lemma format_auto_step (c d : ascii) (t : string) (args : list string) :
  format_auto (String c (String d t)) args
  = if Ascii.eqb c "{" && Ascii.eqb d "}" then
      match args with
      | [] => Raise IndexError
      | a :: args' => r <- format_auto t args' ;; Return (a ++ r)%string
      end
    else r <- format_auto (String d t) args ;; Return (String c r).
Proof. reflexivity. Qed.

Lemma fields_step (c d : ascii) (t : string) :
  fields (String c (String d t))
  = if Ascii.eqb c "{" && Ascii.eqb d "}" then S (fields t)
    else fields (String d t).
Proof. reflexivity. Qed.

Lemma format_auto_short (t : string) :
  forall args, (List.length args < fields t)%nat ->
               format_auto t args = Raise IndexError.
Proof.
  induction t as [|c|c d t IHt IHd] using string_pair_ind; intros args H.
  - simpl in H. lia.
  - simpl in H. lia.
  - rewrite format_auto_step. rewrite fields_step in H.
    destruct (Ascii.eqb c "{" && Ascii.eqb d "}").
    + destruct args as [|a args]; [reflexivity|].
      simpl in H. now rewrite IHt by lia.
    + now rewrite IHd.
Qed.

Lemma format_auto_extra (t : string) :
  forall args extra, (fields t <= List.length args)%nat ->
                     format_auto t (args ++ extra) = format_auto t args.
Proof.
  induction t as [|c|c d t IHt IHd] using string_pair_ind;
    intros args extra H.
  - reflexivity.
  - reflexivity.
  - rewrite !format_auto_step. rewrite fields_step in H.
    destruct (Ascii.eqb c "{" && Ascii.eqb d "}").
    + destruct args as [|a args]; [simpl in H; lia|].
      simpl in H. cbn [app]. now rewrite IHt by lia.
    + now rewrite IHd.
Qed.

Lemma format_auto_enough (t : string) :
  forall args, (fields t <= List.length args)%nat ->
               exists text, format_auto t args = Return text.
Proof.
  induction t as [|c|c d t IHt IHd] using string_pair_ind; intros args H.
  - simpl. eauto.
  - simpl. eauto.
  - rewrite format_auto_step. rewrite fields_step in H.
    destruct (Ascii.eqb c "{" && Ascii.eqb d "}").
    + destruct args as [|a args]; [simpl in H; lia|]. simpl in H.
      destruct (IHt args) as [text ->]; [lia|]. simpl. eauto.
    + destruct (IHd args H) as [text ->]. simpl. eauto.
Qed.

(** The padding pass rewrites each entry on its own. *)
Lemma pad_from_map (spaces : list string) :
  pad_from (List.length spaces) 0 spaces = map padded spaces.
Proof.
  enough (H : forall post pre,
             pad_from (List.length post) (List.length pre) (pre ++ post)
             = pre ++ map padded post)
    by (apply (H spaces [])).
  induction post as [|a post IH]; intros pre; simpl.
  - reflexivity.
  - rewrite nth_error_middle.
    specialize (IH (pre ++ [padded a])).
    rewrite length_app, Nat.add_1_r, <- !app_assoc in IH. simpl in IH.
    rewrite <- IH. f_equal. unfold padded.
    destruct (String.eqb a "x"); now rewrite set_item_middle.
Qed.

Lemma labeled_board_format (b : list (list string)) :
  labeled_board b = format_auto output_board (map padded (List.concat b)).
Proof. unfold labeled_board. now rewrite pad_from_map. Qed.

Lemma output_board_fields : fields output_board = 64%nat.
Proof. vm_compute. reflexivity. Qed.

(** X15: The display needs 64 cells, however the rows hold them: with fewer
    it raises IndexError; with 64 or more it returns a text, and rows
    past the 64th cell change nothing. *)
Theorem labeled_board_counts_cells (b extra : list (list string)) :
  ((List.length (List.concat b) < 64)%nat ->
   labeled_board b = Raise IndexError)
  /\ ((64 <= List.length (List.concat b))%nat ->
      (exists text, labeled_board b = Return text)
      /\ labeled_board (b ++ extra) = labeled_board b).
Proof.
  rewrite !labeled_board_format. split; intros H.
  - apply format_auto_short. now rewrite output_board_fields, length_map.
  - split.
    + apply format_auto_enough. now rewrite output_board_fields, length_map.
    + rewrite concat_app, map_app.
      apply format_auto_extra. now rewrite output_board_fields, length_map.
Qed.

Lemma labeled_board_counts_cells_witness :
  labeled_board [empty_row; empty_row] = Raise IndexError
  /\ labeled_board (starting_board ++ [empty_row])
     = labeled_board starting_board.
Proof.
  split.
  - apply (proj1 (labeled_board_counts_cells [empty_row; empty_row] [])).
    vm_compute. lia.
  - apply (proj2 (labeled_board_counts_cells starting_board [empty_row])).
    vm_compute. lia.
Defined.

Ltac eight_elements l H :=
  do 8 (destruct l as [|? l]; [discriminate H|]);
  destruct l; [clear H | discriminate H].

Lemma string_length_app (s t : string) :
  String.length (s ++ t) = (String.length s + String.length t)%nat.
Proof. induction s as [|a s IH]; simpl; [reflexivity | now rewrite IH]. Qed.

Lemma padded_width (t : string) :
  parse_token t <> None -> String.length (padded t) = 3%nat.
Proof.
  destruct (parse_token t) as [sq|] eqn:H; [|congruence]. intros _.
  apply parse_token_Some in H. subst t.
  destruct sq as [|[] []]; reflexivity.
Qed.

Lemma board_line_width (rank : string) (cells : list string) :
  valid_row cells = true -> String.length rank = 1%nat ->
  String.length (board_line rank cells) = 33%nat.
Proof.
  unfold valid_row, board_line. intros H Hr.
  apply andb_true_iff in H. destruct H as [Hl Hcells].
  apply Nat.eqb_eq in Hl. rewrite string_length_app, Hr.
  enough (String.length (cells_text cells) = (4 * List.length cells)%nat)
    by lia.
  clear Hl. induction cells as [|t cells IH]; [reflexivity|].
  simpl in Hcells. apply andb_true_iff in Hcells.
  destruct Hcells as [Ht Hcells].
  cbn [cells_text List.length].
  rewrite !string_length_app, IH, padded_width by
      (assumption || (destruct (parse_token t); congruence)).
  simpl. lia.
Qed.

(** X16: The display of a validated board: the header line, then one line
    per board row in board order, labelled 8 down to 1, each cell after
    a blank and padded to three characters, so that every row line is 33
    characters long and the columns line up. *)
Theorem labeled_board_lines (b : list (list string)) :
  valid_board b = true ->
  labeled_board b
  = Return (join newline
                 (header_line
                  :: map (fun p => board_line (fst p) (snd p))
                         (combine rank_digits b)))
  /\ Forall (fun line => String.length line = 33%nat)
            (map (fun p => board_line (fst p) (snd p))
                 (combine rank_digits b)).
Proof.
  intros Hb. split.
  - destruct (valid_board_lengths b Hb) as [Hlen Hrows].
    rewrite labeled_board_format.
    destruct b as [|r0 [|r1 [|r2 [|r3 [|r4 [|r5 [|r6 [|r7 [|r8 b]]]]]]]]];
      try discriminate Hlen. clear Hlen.
    assert (E0 : List.length r0 = 8%nat) by (apply Hrows; simpl; tauto).
    assert (E1 : List.length r1 = 8%nat) by (apply Hrows; simpl; tauto).
    assert (E2 : List.length r2 = 8%nat) by (apply Hrows; simpl; tauto).
    assert (E3 : List.length r3 = 8%nat) by (apply Hrows; simpl; tauto).
    assert (E4 : List.length r4 = 8%nat) by (apply Hrows; simpl; tauto).
    assert (E5 : List.length r5 = 8%nat) by (apply Hrows; simpl; tauto).
    assert (E6 : List.length r6 = 8%nat) by (apply Hrows; simpl; tauto).
    assert (E7 : List.length r7 = 8%nat) by (apply Hrows; simpl; tauto).
    clear Hb Hrows.
    eight_elements r0 E0. eight_elements r1 E1. eight_elements r2 E2.
    eight_elements r3 E3. eight_elements r4 E4. eight_elements r5 E5.
    eight_elements r6 E6. eight_elements r7 E7.
    let t := eval vm_compute in output_board in change output_board with t.
    let t := eval vm_compute in newline in change newline with t.
    cbv -[padded append].
    repeat first [rewrite !string_app_assoc | progress cbn [append]].
    reflexivity.
  - apply Forall_forall. intros line Hline.
    apply in_map_iff in Hline. destruct Hline as [[rank cells] [<- Hp]].
    pose proof (in_combine_l _ _ _ _ Hp) as Hrank.
    pose proof (in_combine_r _ _ _ _ Hp) as Hcells.
    apply board_line_width.
    + unfold valid_board in Hb. apply andb_true_iff in Hb.
      destruct Hb as [_ Hb]. rewrite forallb_forall in Hb. now apply Hb.
    + simpl in Hrank.
      repeat (destruct Hrank as [<-|Hrank]; [reflexivity|]).
      destruct Hrank.
Qed.

Lemma labeled_board_lines_witness :
  labeled_board starting_board
  = Return (join newline
                 (header_line
                  :: map (fun p => board_line (fst p) (snd p))
                         (combine rank_digits starting_board))).
Proof.
  apply (labeled_board_lines starting_board). reflexivity.
Defined.

(** ** Further properties: reading the board and the main block *)

Lemma split_on_nonempty (sep : ascii) (s : string) : split_on sep s <> [].
Proof.
  destruct s as [|c s]; simpl; [discriminate|].
  destruct (Ascii.eqb c sep); [discriminate|].
  destruct (split_on sep s); discriminate.
Qed.

Lemma join_cons (sep a : string) (l : list string) :
  l <> [] -> join sep (a :: l) = (a ++ sep ++ join sep l)%string.
Proof. destruct l; [congruence | reflexivity]. Qed.

Lemma split_on_free (sep : ascii) (t : string) :
  free_of sep t -> split_on sep t = [t].
Proof.
  unfold free_of. induction t as [|c t IH]; simpl; [reflexivity|].
  intros H. destruct (Ascii.eqb_spec c sep) as [->|Hne]; [tauto|].
  rewrite IH by tauto. reflexivity.
Qed.

Lemma split_on_free_then (sep : ascii) (t rest : string) :
  free_of sep t ->
  split_on sep (t ++ String sep rest) = t :: split_on sep rest.
Proof.
  unfold free_of. induction t as [|c t IH]; simpl.
  - intros _. now rewrite Ascii.eqb_refl.
  - intros H. destruct (Ascii.eqb_spec c sep) as [->|Hne]; [tauto|].
    rewrite IH by tauto. reflexivity.
Qed.

Lemma join_split_on (line : string) :
  join "," (split_on "," line) = line.
Proof.
  induction line as [|c line IH]; [reflexivity|].
  simpl split_on.
  destruct (Ascii.eqb_spec c ",") as [->|Hne].
  - rewrite join_cons by apply split_on_nonempty.
    now rewrite IH.
  - pose proof (split_on_nonempty "," line) as Hn.
    destruct (split_on "," line) as [|w ws]; [congruence|].
    destruct ws as [|w' ws].
    + simpl in *. now rewrite IH.
    + rewrite join_cons by discriminate.
      rewrite join_cons in IH by discriminate.
      cbn [append] in *. now rewrite IH.
Qed.

Lemma split_on_join (cells : list string) :
  cells <> [] -> Forall (free_of ",") cells ->
  split_on "," (join "," cells) = cells.
Proof.
  induction cells as [|t cells IH]; [congruence|].
  intros _ Hfree. apply Forall_cons_iff in Hfree.
  destruct Hfree as [Ht Hfree].
  destruct cells as [|t' cells].
  - simpl. now apply split_on_free.
  - rewrite join_cons by discriminate.
    change ("," ++ join "," (t' :: cells))%string
      with (String "," (join "," (t' :: cells))).
    rewrite split_on_free_then by assumption.
    now rewrite IH by (discriminate || assumption).
Qed.

Lemma read_rows_lines (n : nat) :
  forall (i o : list string),
    read_rows n (mkConsole i o)
    = if (n <=? List.length i)%nat
      then (Value (map (split_on ",") (firstn n i)),
            mkConsole (skipn n i) o)
      else (EOFError, mkConsole [] o).
Proof.
  induction n as [|n IH]; intros i o; [reflexivity|].
  destruct i as [|line i]; [reflexivity|].
  cbn [read_rows]. unfold io_bind at 1. unfold raw_input at 1.
  cbn [stdin stdout]. unfold io_bind at 1. rewrite IH.
  cbn [List.length firstn skipn map].
  change (S n <=? S (List.length i))%nat with (n <=? List.length i)%nat.
  destruct (n <=? List.length i)%nat; reflexivity.
Qed.

Lemma token_free_of_comma (t : string) :
  parse_token t <> None -> free_of "," t.
Proof.
  destruct (parse_token t) as [sq|] eqn:H; [|congruence]. intros _.
  apply parse_token_Some in H. subst t. unfold free_of.
  destruct sq as [|[] []]; simpl; intros H;
    repeat (destruct H as [H|H]; [discriminate|]); exact H.
Qed.

Lemma valid_row_round_trip (cells : list string) :
  valid_row cells = true -> split_on "," (join "," cells) = cells.
Proof.
  unfold valid_row. intros H. apply andb_true_iff in H.
  destruct H as [Hl Hcells]. apply Nat.eqb_eq in Hl.
  apply split_on_join.
  - destruct cells; [discriminate | discriminate].
  - apply Forall_forall. intros t Ht. apply token_free_of_comma.
    rewrite forallb_forall in Hcells. specialize (Hcells t Ht).
    destruct (parse_token t); congruence.
Qed.

Lemma Piece_str_on_board (p : Piece) :
  in_board (column p) (row p) = true ->
  Piece_str p
  = Return (title (name p) ++ " (" ++ file_letter (column p)
            ++ rank_digit (row p) ++ ")")%string.
Proof.
  intros H. unfold Piece_str.
  rewrite readable_position_in_board by assumption.
  rewrite bind_Return. cbn [format_auto Ascii.eqb Bool.eqb andb bind].
  now rewrite string_app_assoc.
Qed.

Lemma format_report (x y : string) :
  format_auto "{}: {}" [x; y] = Return (x ++ ": " ++ y)%string.
Proof.
  cbn [format_auto Ascii.eqb Bool.eqb andb bind].
  now rewrite string_app_empty.
Qed.

Lemma print_moves_lines (ps : list Piece) :
  (forall p, In p ps -> in_board (column p) (row p) = true) ->
  forall i o,
    print_moves ps (mkConsole i o)
    = (Value tt, mkConsole i (o ++ map report_line ps)).
Proof.
  induction ps as [|p ps IH]; intros Hps i o.
  - simpl. unfold io_return. now rewrite app_nil_r.
  - cbn [print_moves]. unfold io_bind at 1.
    rewrite Piece_str_on_board by (apply Hps; now left).
    rewrite bind_Return, format_report. unfold call.
    unfold io_bind at 1. unfold print at 1. cbn [stdin stdout].
    rewrite IH by (intros; apply Hps; now right).
    cbn [map]. rewrite <- app_assoc. cbn [app].
    unfold report_line at 2.
    rewrite !string_app_assoc. reflexivity.
Qed.

Lemma read_board_lines (b : list (list string)) (rest : list string) :
  valid_board b = true ->
  map (split_on ",") (firstn 8 (board_lines b ++ rest)) = b
  /\ skipn 8 (board_lines b ++ rest) = rest.
Proof.
  intros Hb. destruct (valid_board_lengths b Hb) as [Hlen _].
  assert (Hl : List.length (board_lines b) = 8%nat)
    by (unfold board_lines; now rewrite length_map).
  rewrite firstn_app, skipn_app, Hl, firstn_all2, skipn_all2 by lia.
  simpl. rewrite app_nil_r. split; [|reflexivity].
  unfold board_lines. rewrite map_map.
  rewrite <- (map_id b) at 2. apply map_ext_in.
  intros cells Hc. apply valid_row_round_trip.
  unfold valid_board in Hb. apply andb_true_iff in Hb.
  destruct Hb as [_ Hb]. rewrite forallb_forall in Hb. now apply Hb.
Qed.

(** X17: The main block on the input it expects: given the eight lines of a
    validated board and the color code [w] or [b], it ends normally,
    leaves the rest of the input unread, and prints the two prompts, the
    board display of that very board, and one line per piece of that
    color in collector order, naming the piece, its square and its
    moves. *)
Theorem main_reports_moves (b : list (list string)) (mover : Color)
        (rest out : list string) :
  valid_board b = true ->
  exists ps text,
    find_pieces b (color_code mover) = Return ps
    /\ labeled_board b = Return text
    /\ main (mkConsole (board_lines b ++ color_code mover :: rest) out)
       = (Value tt,
          mkConsole rest
                    (out ++ board_prompt ++ color_prompt ++ board_banner
                     ++ [text] ++ moves_banner ++ map report_line ps)).
Proof.
  intros Hb.
  destruct (read_board_lines b (color_code mover :: rest) Hb) as [Hrows Hrest].
  exists (flat_map (fun r => flat_map (fun c => piece_at b mover c r)
                                      (range 8))
                   (scan_rows mover)).
  destruct (format_auto_enough output_board (map padded (List.concat b)))
    as [text Htext].
  { rewrite output_board_fields, length_map.
    destruct (valid_board_lengths b Hb) as [Hlen Hr].
    clear - Hlen Hr.
    do 9 (destruct b as [|? b]; try discriminate Hlen).
    simpl. rewrite !length_app, !Hr by (simpl; tauto). simpl. lia. }
  rewrite <- labeled_board_format in Htext.
  exists text. split; [now apply find_pieces_list|]. split; [assumption|].
  unfold main.
  unfold io_bind at 1. unfold print at 1. cbn [stdin stdout].
  unfold io_bind at 1. unfold print at 1. cbn [stdin stdout].
  unfold io_bind at 1. rewrite read_rows_lines.
  replace (8 <=? List.length (board_lines b ++ color_code mover :: rest))%nat
    with true
    by (symmetry; apply Nat.leb_le; rewrite length_app;
        unfold board_lines; rewrite length_map;
        destruct (valid_board_lengths b Hb) as [-> _]; lia).
  rewrite Hrows, Hrest.
  unfold io_bind at 1. unfold print at 1. cbn [stdin stdout].
  unfold io_bind at 1. unfold print at 1. cbn [stdin stdout].
  unfold io_bind at 1. unfold raw_input at 1. cbn [stdin stdout].
  unfold io_bind at 1. rewrite (find_pieces_list b mover Hb).
  unfold call at 1.
  do 4 (unfold io_bind at 1; unfold print at 1; cbn [stdin stdout]).
  unfold io_bind at 1. rewrite Htext. unfold call at 1.
  do 4 (unfold io_bind at 1; unfold print at 1; cbn [stdin stdout]).
  rewrite print_moves_lines.
  - unfold board_prompt, color_prompt, board_banner, moves_banner.
    rewrite <- !app_assoc. reflexivity.
  - intros p Hp. apply in_flat_map in Hp. destruct Hp as [r [_ Hp]].
    apply in_flat_map in Hp. destruct Hp as [c [_ Hp]].
    apply piece_at_In in Hp. destruct Hp as [k [Hsq ->]]. simpl.
    now apply square_at_Some in Hsq.
Qed.

Lemma main_reports_moves_witness :
  exists ps text,
    find_pieces starting_board (color_code White) = Return ps
    /\ labeled_board starting_board = Return text
    /\ main (mkConsole (board_lines starting_board ++ color_code White :: [])
                       [])
       = (Value tt,
          mkConsole []
                    ([] ++ board_prompt ++ color_prompt ++ board_banner
                     ++ [text] ++ moves_banner ++ map report_line ps)).
Proof.
  apply (main_reports_moves starting_board White [] []). reflexivity.
Defined.

(** X18: The main block on short input: it asks for nothing it can do
    without.  With fewer than eight lines it stops with EOFError after
    the first prompt; with exactly eight lines, whatever they hold, it
    takes them for the board, prints the second prompt and stops with
    EOFError for want of the color.  All input is used up and no board
    or move is printed. *)
Theorem main_needs_nine_lines (i o : list string) :
  ((List.length i < 8)%nat ->
   main (mkConsole i o) = (EOFError, mkConsole [] (o ++ board_prompt)))
  /\ (List.length i = 8%nat ->
      main (mkConsole i o)
      = (EOFError, mkConsole [] (o ++ board_prompt ++ color_prompt))).
Proof.
  split; intros H; unfold main;
    do 2 (unfold io_bind at 1; unfold print at 1; cbn [stdin stdout]);
    unfold io_bind at 1; rewrite read_rows_lines.
  - replace (8 <=? List.length i)%nat with false
      by (symmetry; apply Nat.leb_gt; lia).
    unfold board_prompt. now rewrite <- app_assoc.
  - replace (8 <=? List.length i)%nat with true
      by (symmetry; apply Nat.leb_le; lia).
    rewrite skipn_all2 by lia.
    do 2 (unfold io_bind at 1; unfold print at 1; cbn [stdin stdout]).
    unfold io_bind at 1. unfold raw_input at 1. cbn [stdin stdout].
    unfold board_prompt, color_prompt. now rewrite <- !app_assoc.
Qed.

Lemma main_needs_nine_lines_witness :
  main (mkConsole (board_lines starting_board) [])
  = (EOFError, mkConsole [] ([] ++ board_prompt ++ color_prompt)).
Proof.
  apply (proj2 (main_needs_nine_lines (board_lines starting_board) [])).
  reflexivity.
Defined.

(** ** Further properties: no square twice *)

Lemma NoDup_flat_map_disjoint {A B : Type} (g : A -> list B) (xs : list A) :
  NoDup xs ->
  (forall x, In x xs -> NoDup (g x)) ->
  (forall x y a, In x xs -> In y xs -> In a (g x) -> In a (g y) -> x = y) ->
  NoDup (flat_map g xs).
Proof.
  intros Hxs. induction Hxs as [|x xs Hx Hxs IH]; intros Hg Hdis; simpl.
  - constructor.
  - apply NoDup_app.
    + apply Hg. now left.
    + apply IH; [intros; apply Hg; now right|].
      intros y z a Hy Hz. apply Hdis; now right.
    + intros a Ha Hin. apply in_flat_map in Hin.
      destruct Hin as [y [Hy Hay]].
      assert (x = y) by (apply (Hdis x y a); simpl; auto).
      subst y. contradiction.
Qed.

Lemma ray_NoDup (b : list (list string)) (mover : Color) (dc dr : Z)
      (n : nat) :
  dc <> 0 \/ dr <> 0 ->
  forall c r, NoDup (ray b mover dc dr n c r).
Proof.
  intros Hd. induction n as [|n IH]; intros c r; simpl; [constructor|].
  destruct (square_at b (c + dc) (r + dr)) as [[|oc k]|].
  - constructor; [|apply IH].
    intros Hin. apply ray_reached in Hin.
    destruct Hin as [j [Hj [Hx [Hy _]]]]. simpl in Hx, Hy.
    assert (j * dc = 0) by lia. assert (j * dr = 0) by lia.
    apply Z.mul_eq_0 in H, H0. lia.
  - destruct (color_eqb oc mover); repeat constructor. intros [].
  - constructor.
Qed.

Lemma render_injective (m n : Move) :
  in_board (target_column m) (target_row m) = true ->
  in_board (target_column n) (target_row n) = true ->
  render m = render n -> m = n.
Proof.
  intros Hm Hn H.
  assert (Some m = Some n)
    by (rewrite <- (parse_render m Hm), <- (parse_render n Hn); now rewrite H).
  congruence.
Qed.

(** X6: A rook, bishop, queen or king is never given the same move twice. *)
Theorem sliders_report_no_move_twice (b : list (list string))
        (piece : Piece) (mover : Color) :
  valid_board b = true ->
  color piece = color_name mover ->
  In (name piece) ["rook"; "bishop"; "queen"; "king"]%string ->
  exists ms, find_moves b piece = Return ms /\ NoDup ms.
Proof.
  intros Hb Hc Hn.
  assert (Hk : str_in_list (name piece) (keys move_options) = true).
  { simpl in Hn. destruct Hn as [<-|[<-|[<-|[<-|[]]]]]; reflexivity. }
  rewrite (slider_moves b piece mover Hb Hc Hk).
  eexists. split; [reflexivity|].
  set (W := fun d : Z * Z => walker b mover (fst d) (snd d)
                                    (Z.to_nat (reach_of (name piece)))
                                    (column piece) (row piece)).
  apply NoDup_map_NoDup_ForallPairs.
  - intros m n Hm Hn'. apply render_injective.
    + apply in_flat_map in Hm. destruct Hm as [d [_ Hm]].
      now apply walker_in_board in Hm.
    + apply in_flat_map in Hn'. destruct Hn' as [d [_ Hn']].
      now apply walker_in_board in Hn'.
  - assert (Hdirs : incl (directions_of (name piece))
                         (directions_of "queen")).
    { simpl in Hn. destruct Hn as [<-|[<-|[<-|[<-|[]]]]];
        vm_compute; tauto. }
    apply NoDup_flat_map_disjoint.
    + simpl in Hn. destruct Hn as [<-|[<-|[<-|[<-|[]]]]]; vm_compute;
        repeat (constructor;
                [intros Hx;
                 repeat (destruct Hx as [Hx|Hx]; [discriminate Hx|]);
                 exact Hx|]);
        constructor.
    + intros d Hd. apply Hdirs in Hd. unfold W, walker.
      destruct (in_board (column piece) (row piece)); [|constructor].
      apply ray_NoDup. vm_compute in Hd.
      repeat (destruct Hd as [<-|Hd]; [simpl; lia|]). destruct Hd.
    + intros d d' m Hd Hd' Hm Hm'.
      apply Hdirs in Hd, Hd'.
      apply walker_reached in Hm, Hm'.
      destruct Hm as [j [Hj [Hx [Hy _]]]].
      destruct Hm' as [j' [Hj' [Hx' [Hy' _]]]].
      rewrite Hx in Hx'. rewrite Hy in Hy'.
      vm_compute in Hd. vm_compute in Hd'.
      repeat (destruct Hd as [<-|Hd];
              [repeat (destruct Hd' as [<-|Hd'];
                       [first [reflexivity
                              | exfalso; cbn [fst snd] in *; lia]|]);
               destruct Hd'|]).
      destruct Hd.
Qed.

Lemma sliders_report_no_move_twice_witness :
  exists ms,
    find_moves rook_board (mkPiece "white" "queen" 0 0 []) = Return ms
    /\ NoDup ms.
Proof.
  apply (sliders_report_no_move_twice
           rook_board (mkPiece "white" "queen" 0 0 []) White);
    [reflexivity | reflexivity | simpl; tauto].
Defined.
